(** * Starlia: the streaming response assembler and its CDN image pipeline

    A shallow embedding of
    - [src/utils/imageUrlParser.ts]   (parser, validator, fetcher, batch downloader),
    - [services/geminiService.ts]     (the client-side streaming assembler with
                                       CDN image resolution), and
    - [server/geminiProxy.ts]         (the server-side assembler: the plain part merger).

    Conventions.  A JavaScript string is modelled by [string], one [ascii] per
    UTF-16 code unit, for code units below 256 (Latin-1).  [undefined] is
    [None].  A promise that rejects (an exception that escapes an [async]
    function) is the [Throw] constructor of [Completion].  The platform
    functions the code calls but does not define, the [URL] constructor and
    [fetch], are parameters of the development. *)

From Stdlib Require Import Ascii String Lia.
From stdpp Require Import base tactics option list numbers strings.

(** ** JavaScript string primitives *)

Module Js.

(** [s] is truthy: a string is falsy exactly when it is empty. *)
Definition truthy (s : string) : bool :=
  match s with
  | EmptyString => false
  | String _ _ => true
  end.

(** [o] is truthy, for a value that is a string or [undefined]. *)
Definition truthy_opt (o : option string) : bool :=
  match o with
  | Some s => truthy s
  | None => false
  end.

(** [a || b] on strings. *)
Definition or_else (o : option string) (d : string) : string :=
  match o with
  | Some s => if truthy s then s else d
  | None => d
  end.

(** White space and line terminators stripped by [String.prototype.trim],
    among the code units below 256: TAB, LF, VT, FF, CR, SP, NBSP. *)
Definition is_white_space (c : ascii) : bool :=
  match c with
  | "009" | "010" | "011" | "012" | "013" | " " | "160" => true
  | _ => false
  end%char.

(** Line terminators, which [.] in a regular expression does not match. *)
Definition is_line_terminator (c : ascii) : bool :=
  match c with
  | "010" | "013" => true
  | _ => false
  end%char.

Fixpoint trimStart (s : string) : string :=
  match s with
  | EmptyString => EmptyString
  | String c s' => if is_white_space c then trimStart s' else s
  end.

Fixpoint trimEnd (s : string) : string :=
  match s with
  | EmptyString => EmptyString
  | String c s' =>
      match trimEnd s' with
      | EmptyString => if is_white_space c then EmptyString else String c EmptyString
      | r => String c r
      end
  end.

Definition trim (s : string) : string := trimEnd (trimStart s).

(** [s.endsWith(" ")]. *)
Fixpoint endsWith_space (s : string) : bool :=
  match s with
  | EmptyString => false
  | String c EmptyString => Ascii.eqb c " "
  | String _ s' => endsWith_space s'
  end.

(** [String.prototype.toLowerCase] on code units below 256. *)
Definition lower_char (c : ascii) : ascii :=
  let n := nat_of_ascii c in
  if ((65 <=? n) && (n <=? 90)) || ((192 <=? n) && (n <=? 222) && negb (n =? 215))
  then ascii_of_nat (n + 32) else c.

Fixpoint toLowerCase (s : string) : string :=
  match s with
  | EmptyString => EmptyString
  | String c s' => String (lower_char c) (toLowerCase s')
  end.

(** [s.startsWith(p)], returning what follows the prefix. *)
Fixpoint strip_prefix (p s : string) : option string :=
  match p, s with
  | EmptyString, _ => Some s
  | String a p', String b s' => if Ascii.eqb a b then strip_prefix p' s' else None
  | String _ _, EmptyString => None
  end.

(** [s.includes(p)]. *)
Fixpoint includes (s p : string) : bool :=
  match strip_prefix p s with
  | Some _ => true
  | None =>
      match s with
      | EmptyString => false
      | String _ s' => includes s' p
      end
  end.

(** All code units of [s] satisfy [f]. *)
Fixpoint all_chars (f : ascii -> bool) (s : string) : bool :=
  match s with
  | EmptyString => true
  | String c s' => f c && all_chars f s'
  end.

(** [s.split(",")]. *)
Fixpoint split_comma (s : string) : list string :=
  match s with
  | EmptyString => [EmptyString]
  | String c s' =>
      if Ascii.eqb c ","
      then EmptyString :: split_comma s'
      else match split_comma s' with
           | x :: xs => String c x :: xs
           | [] => [String c EmptyString]
           end
  end.

End Js.

(** ** [src/utils/imageUrlParser.ts]: the image reference parser *)

Record ParsedImage := { url : string; alt : string }.

Record ParsedContent := { textParts : list string; imageUrls : list ParsedImage }.

(** The characters of [s] up to the first [stop], and what follows it.
    This is how a greedy negated character class followed by the excluded
    character itself matches. *)
Fixpoint scan_to (stop : ascii) (s : string) : option (string * string) :=
  match s with
  | EmptyString => None
  | String c s' =>
      if Ascii.eqb c stop then Some (EmptyString, s')
      else match scan_to stop s' with
           | Some (m, rest) => Some (String c m, rest)
           | None => None
           end
  end.

(** The regular expression [imageRegex] anchored at the head of [s]: a bang,
    an opening bracket, any characters but a closing bracket (capture 1), a
    closing bracket, an opening parenthesis, one or more characters but a
    closing parenthesis (capture 2), a closing parenthesis.  The result is
    the two captures and the text after the match. *)
Definition match_image (s : string) : option (string * string * string) :=
  match s with
  | String "!" (String "[" s1) =>
      match scan_to "]" s1 with
      | Some (m1, String "(" s2) =>
          match scan_to ")" s2 with
          | Some (String c m2, rest) => Some (m1, String c m2, rest)
          | _ => None
          end
      | _ => None
      end
  | _ => None
  end.

(** The [while ((match = imageRegex.exec(text)) !== null)] loop together with
    the code after it.  [s] is the text from the scanning position on and
    [before] is [text.slice(lastIndex, position)]; the scan advances one
    code unit at a time until the expression matches at the position.
    Every iteration consumes at least one code unit of [s]. *)
Fixpoint parse_loop (fuel : nat) (before s : string)
    (texts : list string) (images : list ParsedImage) : list string * list ParsedImage :=
  match fuel with
  | 0 => (texts, images)
  | S fuel' =>
      match match_image s with
      | Some (m1, m2, rest) =>
          (* if (match.index > lastIndex) { if (textBefore.trim()) push } *)
          let texts' :=
            if Js.truthy before && Js.truthy (Js.trim before)
            then texts ++ [before] else texts in
          parse_loop fuel' EmptyString rest texts' (images ++ [{| url := m2; alt := m1 |}])
      | None =>
          match s with
          | String c s' => parse_loop fuel' (before +:+ String c EmptyString) s' texts images
          | EmptyString =>
              (* if (lastIndex < text.length) { if (remainingText.trim()) push } *)
              if Js.truthy before && Js.truthy (Js.trim before)
              then (texts ++ [before], images) else (texts, images)
          end
      end
  end.

Definition parseMarkdownImages (text : string) : ParsedContent :=
  let '(texts, images) := parse_loop (S (String.length text)) EmptyString text [] [] in
  (* if (imageUrls.length === 0 && text.trim()) textParts.push(text) *)
  let texts' :=
    if (Nat.eqb (length images) 0) && Js.truthy (Js.trim text)
    then texts ++ [text] else texts in
  {| textParts := texts'; imageUrls := images |}.

(** ** The platform: the [URL] constructor and [fetch] *)

(** The fields of a [URL] object.  The code reads [hostname] only; the
    other two serve to state the policy of the specification. *)
Record URLRecord := { hostname : string; pathname : string; search : string }.

(** Exceptions that reach the code of this repository. *)
Inductive JsError :=
| DownloadTimeout                                   (* the fetcher's own timeout [Error] *)
| HttpError (status : nat) (statusText : string)    (* [Error("HTTP status: statusText")] *)
| FileReaderError                                   (* the [Error] of [reader.onerror] *)
| PlatformError (message : string).                 (* thrown by [fetch] or [blob()] *)

(** How an [async] function completes: its promise fulfils or rejects. *)
Inductive Completion (A : Type) :=
| Return (a : A)
| Throw (e : JsError).
Arguments Return {A} a.
Arguments Throw {A} e.

(** What reading the body of a response does: [response.blob()] rejects,
    the [FileReader] reports an error, or it loads a data URL. *)
Inductive BodyOutcome :=
| BlobRejects (message : string)
| ReaderFails
| ReaderLoads (result : string).

Record Response := {
  status : nat;
  statusText : string;
  content_type : option string;      (* [response.headers.get('content-type')] *)
  body : BodyOutcome
}.

(** [response.ok], by the Fetch standard: the status is in the range 200-299. *)
Definition ok (r : Response) : bool := (200 <=? status r) && (status r <=? 299).

(** How [fetch(url, { signal })] settles against the abort timer. *)
Inductive FetchSettle :=
| TimedOut                         (* the timer fires first and aborts the request *)
| Rejects (message : string)       (* [fetch] rejects before the timer fires *)
| Responds (r : Response).         (* [fetch] fulfils before the timer fires *)

Record ImageData := { mimeType : string; base64Data : string }.

Record Downloaded := { d_url : string; d_mimeType : string; d_base64Data : string }.

Definition knownImageDomains : list string :=
  [ "googlecdn.datas.systems"; "cdn.google.com"; "storage.googleapis.com";
    "lh3.googleusercontent.com" ].

Definition imageExtensions : list string := [ "jpg"; "jpeg"; "png"; "gif"; "webp"; "svg" ].

(** A literal of a case-insensitive regular expression at the head of [s].
    Among code units below 256 only the two cases of an ASCII letter are
    identified with it, which [Js.lower_char] decides. *)
Fixpoint strip_prefix_ci (p s : string) : option string :=
  match p, s with
  | EmptyString, _ => Some s
  | String a p', String b s' =>
      if Ascii.eqb (Js.lower_char a) (Js.lower_char b) then strip_prefix_ci p' s' else None
  | String _ _, EmptyString => None
  end.

(** The end of [validImageExtensions]: an optional question mark followed by
    any characters but line terminators, then the end of the input. *)
Definition extension_tail (s : string) : bool :=
  match s with
  | EmptyString => true
  | String "?" r => Js.all_chars (fun c => negb (Js.is_line_terminator c)) r
  | String _ _ => false
  end.

(** [validImageExtensions] anchored at the head of [s]. *)
Definition extension_here (s : string) : bool :=
  match s with
  | String "." r =>
      existsb (fun e => match strip_prefix_ci e r with
                        | Some t => extension_tail t
                        | None => false
                        end) imageExtensions
  | _ => false
  end.

(** [validImageExtensions.test(s)]: the expression matches somewhere in [s]. *)
Fixpoint validImageExtensions_test (s : string) : bool :=
  extension_here s ||
  match s with
  | EmptyString => false
  | String _ s' => validImageExtensions_test s'
  end.

(** [blobToBase64]: [result.split(',')[1] || ''] once the reader has loaded. *)
Definition base64_of_result (result : string) : string :=
  Js.or_else (Js.split_comma result !! 1) "".

Section Pipeline.

(** [new URL(s)]: [None] when the constructor throws. *)
Variable URL : string -> option URLRecord.

(** [fetch(url, ...)] raced against a timer of [timeout] milliseconds. *)
Variable fetch : string -> N -> FetchSettle.

(** *** The image reference validator *)

Definition isValidImageUrl (url : string) : bool :=
  match URL url with
  | None => false
  | Some urlObj =>
      if validImageExtensions_test url then true
      else if Js.includes (Js.toLowerCase url) "image" then true
      else existsb (fun domain => Js.includes (hostname urlObj) domain) knownImageDomains
  end.

Definition containsCdnImages (text : string) : bool :=
  existsb (fun img => isValidImageUrl (url img)) (imageUrls (parseMarkdownImages text)).

(** *** The bounded image fetcher *)

Definition downloadImageAsBase64 (url : string) (timeout : N) : Completion ImageData :=
  match fetch url timeout with
  | TimedOut => Throw DownloadTimeout          (* catch: [controller.signal.aborted] *)
  | Rejects m => Throw (PlatformError m)       (* catch: [throw error] *)
  | Responds response =>
      if negb (ok response)
      then Throw (HttpError (status response) (statusText response))
      else
        let contentType := Js.or_else (content_type response) "image/png" in
        match body response with
        | BlobRejects m => Throw (PlatformError m)
        | ReaderFails => Throw FileReaderError
        | ReaderLoads result =>
            Return {| mimeType := contentType; base64Data := base64_of_result result |}
        end
  end.

(** *** The batch downloader *)

(** The body of the [for] loop of [processBatch]: the value stored in
    [results[i]] for [urls[i] = url]. *)
Definition download_slot (url : string) (timeout : N) : option Downloaded :=
  if isValidImageUrl url then
    match downloadImageAsBase64 url timeout with
    | Return imageData =>
        Some {| d_url := url; d_mimeType := mimeType imageData;
                d_base64Data := base64Data imageData |}
    | Throw _ => None
    end
  else None.

(** [for (let i = startIndex; i < urls.length && i < startIndex + concurrency; i++)],
    entered at [i] with at most [k] iterations to go. *)
Fixpoint processBatch_loop (urls : list string) (concurrency : nat) (timeout : N)
    (startIndex k i : nat) (results : list (option Downloaded)) : list (option Downloaded) :=
  match k with
  | 0 => results
  | S k' =>
      if (i <? length urls) && (i <? startIndex + concurrency) then
        match urls !! i with
        | Some u =>
            processBatch_loop urls concurrency timeout startIndex k' (S i)
              (<[i := download_slot u timeout]> results)
        | None => results
        end
      else results
  end.

Definition processBatch (urls : list string) (concurrency : nat) (timeout : N)
    (startIndex : nat) (results : list (option Downloaded)) : list (option Downloaded) :=
  processBatch_loop urls concurrency timeout startIndex concurrency startIndex results.

(** [for (let i = 0; i < urls.length; i += concurrency) batches.push(processBatch(i))]:
    the start indices of the batches, entered at [i].  [None]: the loop has
    not finished within [fuel] iterations. *)
Fixpoint batch_starts (n concurrency fuel i : nat) : option (list nat) :=
  if i <? n then
    match fuel with
    | 0 => None
    | S fuel' => cons i <$> batch_starts n concurrency fuel' (i + concurrency)
    end
  else Some [].

(** The result array once every batch has finished.  The batches write
    disjoint indices of [results], so the order in which they finish does not
    matter; they are run here in the order in which they were started. *)
Definition batchDownloadImages_fuel (fuel : nat) (urls : list string)
    (concurrency : nat) (timeout : N) : option (list (option Downloaded)) :=
  match batch_starts (length urls) concurrency fuel 0 with
  | Some starts =>
      Some (foldl (fun results startIndex =>
                     processBatch urls concurrency timeout startIndex results)
                  (replicate (length urls) None) starts)
  | None => None
  end.

Definition batchDownloadImages (urls : list string) (concurrency : nat) (timeout : N)
    : option (list (option Downloaded)) :=
  batchDownloadImages_fuel (length urls) urls concurrency timeout.

(** The fetches in flight when the launching loop has pushed every batch.
    An [async] function runs synchronously up to its first [await] that
    suspends, so [processBatch(startIndex)] has skipped the URLs the
    validator rejects and has issued the [fetch] of the first URL it accepts;
    the later URLs of the batch wait for that fetch. *)
Fixpoint first_fetch (urls : list string) (concurrency : nat)
    (startIndex k i : nat) : option nat :=
  match k with
  | 0 => None
  | S k' =>
      if (i <? length urls) && (i <? startIndex + concurrency) then
        match urls !! i with
        | Some u => if isValidImageUrl u then Some i
                    else first_fetch urls concurrency startIndex k' (S i)
        | None => None
        end
      else None
  end.

Definition in_flight_after_launch (urls : list string) (concurrency : nat)
    : option (list nat) :=
  match batch_starts (length urls) concurrency (length urls) 0 with
  | Some starts =>
      Some (omap (fun startIndex =>
                    first_fetch urls concurrency startIndex concurrency startIndex) starts)
  | None => None
  end.

End Pipeline.

(** ** Content parts *)

Record InlineData := { inline_mimeType : string; inline_data : string }.

(** [Part] of the application: every field is optional in the interface. *)
Record Part := {
  text : option string;
  inlineData : option InlineData;
  thought : option bool;
  thoughtSignature : option string
}.

(** [inlineData] of a part of the provider's SDK. *)
Record SDKInlineData := { sdk_mimeType : option string; sdk_data : option string }.

(** A part of the provider's SDK, the fragment the assemblers consume. *)
Record SDKPart := {
  sdk_text : option string;
  sdk_inlineData : option SDKInlineData;
  sdk_thought : option bool;
  sdk_thoughtSignature : option string
}.

(** [!!x] for a boolean or [undefined]. *)
Definition to_boolean (o : option bool) : bool := default false o.

(** [...(signature && { thoughtSignature: signature })]: the field a spread
    adds, present only for a truthy signature. *)
Definition spread_signature (signature : option string) : option string :=
  if Js.truthy_opt signature then signature else None.

(** [{ text: t, thought: isThought, ...(signature && { thoughtSignature: signature }) }] *)
Definition textPart (t : string) (isThought : bool) (signature : option string) : Part :=
  {| text := Some t; inlineData := None; thought := Some isThought;
     thoughtSignature := spread_signature signature |}.

(** The part pushed for a fragment with [inlineData]. *)
Definition binaryPart (d : SDKInlineData) (isThought : bool) (signature : option string) : Part :=
  {| text := None;
     inlineData := Some {| inline_mimeType := Js.or_else (sdk_mimeType d) "image/png";
                           inline_data := Js.or_else (sdk_data d) "" |};
     thought := Some isThought;
     thoughtSignature := spread_signature signature |}.

(** [lastPart.text += t; if (signature) lastPart.thoughtSignature = signature] *)
Definition extendPart (lastPart : Part) (lastText t : string) (signature : option string) : Part :=
  {| text := Some (lastText +:+ t);
     inlineData := inlineData lastPart;
     thought := thought lastPart;
     thoughtSignature :=
       if Js.truthy_opt signature then signature else thoughtSignature lastPart |}.

(** The text branch common to both assemblers: append to the last part when
    it is a text part of the same thought state, else push a new text part. *)
Definition mergeText (currentParts : list Part) (t : string) (isThought : bool)
    (signature : option string) : list Part :=
  match last currentParts with
  | Some lastPart =>
      match text lastPart with
      | Some lastText =>
          if Bool.eqb (to_boolean (thought lastPart)) isThought
          then <[pred (length currentParts) := extendPart lastPart lastText t signature]>
                 currentParts
          else currentParts ++ [textPart t isThought signature]
      | None => currentParts ++ [textPart t isThought signature]
      end
  | None => currentParts ++ [textPart t isThought signature]
  end.

(** A chunk of the provider's stream: whether the abort signal is set when
    the chunk arrives, and [candidates[0].content?.parts || []], or [None]
    for a chunk without candidates. *)
Record Chunk := { aborted : bool; candidate_parts : option (list SDKPart) }.

(** ** [server/geminiProxy.ts]: the part merger *)

Module GeminiProxy.

(** The body of [for (const part of newParts)]. *)
Definition mergePart (currentParts : list Part) (part : SDKPart) : list Part :=
  let signature := sdk_thoughtSignature part in
  let isThought := to_boolean (sdk_thought part) in
  match sdk_text part with
  | Some t => mergeText currentParts t isThought signature
  | None =>
      match sdk_inlineData part with
      | Some d => currentParts ++ [binaryPart d isThought signature]
      | None => currentParts
      end
  end.

(** [for await (const chunk of responseStream)]: the part lists yielded.
    A chunk is [candidates[0].content?.parts || []], or [None] when it has
    no candidates. *)
Fixpoint streamLoop (chunks : list (option (list SDKPart)))
    (currentParts : list Part) : list (list Part) :=
  match chunks with
  | [] => []
  | None :: rest => streamLoop rest currentParts
  | Some newParts :: rest =>
      let currentParts' := foldl mergePart currentParts newParts in
      currentParts' :: streamLoop rest currentParts'
  end.

Definition streamGeminiResponse (chunks : list (option (list SDKPart))) : list (list Part) :=
  streamLoop chunks [].

End GeminiProxy.

(** ** [services/geminiService.ts]: the streaming assembler with CDN images *)

Module GeminiService.

Section Assembler.

Variable URL : string -> option URLRecord.
Variable fetch : string -> N -> FetchSettle.

(** The literal markup put back for a reference that failed to resolve. *)
Definition originalMarkdown (img : ParsedImage) : string :=
  "![" +:+ Js.or_else (Some (alt img)) "image" +:+ "](" +:+ url img +:+ ")".

(** The body of [imageResults.forEach((imageData, index) => ...)]. [None]
    stands for the [TypeError] of reading a field of [imageUrls[index]]
    when it is [undefined]. *)
Definition spliceImage (imageUrls : list ParsedImage) (isThought : bool)
    (signature : option string) (parts : list Part) (index : nat)
    (imageData : option Downloaded) : option (list Part) :=
  match imageData with
  | Some d =>
      Some (parts ++ [ {| text := None;
                          inlineData := Some {| inline_mimeType := d_mimeType d;
                                                inline_data := d_base64Data d |};
                          thought := Some isThought;
                          thoughtSignature := spread_signature signature |} ])
  | None =>
      match imageUrls !! index with
      | None => None
      | Some img =>
          let md := originalMarkdown img in
          match last parts with
          | Some lastTextPart =>
              if Js.truthy_opt (text lastTextPart) then
                let lastText := default "" (text lastTextPart) in
                Some (<[pred (length parts) :=
                         {| text := Some (lastText +:+
                                          (if Js.endsWith_space lastText then "" else " ") +:+ md);
                            inlineData := inlineData lastTextPart;
                            thought := thought lastTextPart;
                            thoughtSignature := thoughtSignature lastTextPart |}]> parts)
              else Some (parts ++ [textPart md isThought signature])
          | None => Some (parts ++ [textPart md isThought signature])
          end
      end
  end.

(** [imageResults.forEach], from [index] on.  The boolean tells whether the
    loop was left by an exception; the parts pushed so far stay in [parts]. *)
Fixpoint spliceImages (imageUrls : list ParsedImage) (isThought : bool)
    (signature : option string) (index : nat) (imageResults : list (option Downloaded))
    (parts : list Part) : list Part * bool :=
  match imageResults with
  | [] => (parts, false)
  | imageData :: rest =>
      match spliceImage imageUrls isThought signature parts index imageData with
      | Some parts' => spliceImages imageUrls isThought signature (S index) rest parts'
      | None => (parts, true)
      end
  end.

(** [textParts.forEach(textPart => { if (textPart.trim()) parts.push(...) })] *)
Definition pushTextParts (textParts : list string) (isThought : bool)
    (signature : option string) : list Part :=
  map (fun t => textPart t isThought signature)
      (filter (fun t => Is_true (Js.truthy (Js.trim t))) textParts).

(** [None]: the call does not return (the batch downloader does not). *)
Definition processTextWithCdnImages (t : string) (isThought : bool)
    (signature : option string) : option (list Part) :=
  let parsed := parseMarkdownImages t in
  let parts := pushTextParts (textParts parsed) isThought signature in
  if 0 <? length (imageUrls parsed) then
    match batchDownloadImages URL fetch (map url (imageUrls parsed)) 3 10000%N with
    | None => None
    | Some imageResults =>
        match spliceImages (imageUrls parsed) isThought signature 0 imageResults parts with
        | (parts', false) => Some parts'
        | (parts', true) =>
            (* catch (error): keep the original text *)
            Some (parts' ++ [textPart t isThought signature])
        end
    end
  else Some parts.

(** The variables of the generator. *)
Record StreamState := {
  currentParts : list Part;
  pendingTextBuffer : string;
  lastThoughtState : bool;
  lastSignature : option string
}.

Definition initialState : StreamState :=
  {| currentParts := []; pendingTextBuffer := "";
     lastThoughtState := false; lastSignature := None |}.

(** The index of the last part whose [text] is not [undefined]. *)
Fixpoint lastTextIndex (parts : list Part) : option nat :=
  match parts with
  | [] => None
  | p :: ps =>
      match lastTextIndex ps with
      | Some i => Some (S i)
      | None => if bool_decide (is_Some (text p)) then Some 0 else None
      end
  end.

(** The splice of a resolution pass: [currentParts.splice(lastTextIndex, 1)]
    when there is a text part, then [currentParts.push(...processedParts)]. *)
Definition spliceProcessed (parts processedParts : list Part) : list Part :=
  match lastTextIndex parts with
  | Some i => delete i parts ++ processedParts
  | None => parts ++ processedParts
  end.

(** The body of [for (const part of newParts)].  Nothing in the [try] block
    of the resolution pass throws ([processTextWithCdnImages] catches its own
    exceptions), so its [catch] block has no counterpart here. *)
Definition processPart (enableCdnImageProcessing : bool) (st : StreamState)
    (part : SDKPart) : option StreamState :=
  let signature := sdk_thoughtSignature part in
  let isThought := to_boolean (sdk_thought part) in
  match sdk_text part with
  | Some t =>
      let buffer := pendingTextBuffer st +:+ t in
      if enableCdnImageProcessing && containsCdnImages URL buffer then
        match processTextWithCdnImages buffer isThought signature with
        | None => None
        | Some processedParts =>
            Some {| currentParts := spliceProcessed (currentParts st) processedParts;
                    pendingTextBuffer := "";
                    lastThoughtState := isThought;
                    lastSignature := signature |}
        end
      else
        Some {| currentParts := mergeText (currentParts st) t isThought signature;
                pendingTextBuffer := buffer;
                lastThoughtState := isThought;
                lastSignature := signature |}
  | None =>
      match sdk_inlineData part with
      | Some d =>
          (* Handle any pending text first *)
          let flushed :=
            if Js.truthy (Js.trim (pendingTextBuffer st)) then
              {| currentParts :=
                   currentParts st ++
                   [textPart (pendingTextBuffer st) (lastThoughtState st) (lastSignature st)];
                 pendingTextBuffer := "";
                 lastThoughtState := lastThoughtState st;
                 lastSignature := lastSignature st |}
            else st in
          Some {| currentParts := currentParts flushed ++ [binaryPart d isThought signature];
                  pendingTextBuffer := pendingTextBuffer flushed;
                  lastThoughtState := lastThoughtState flushed;
                  lastSignature := lastSignature flushed |}
      | None => Some st
      end
  end.

Fixpoint processParts (enableCdnImageProcessing : bool) (st : StreamState)
    (newParts : list SDKPart) : option StreamState :=
  match newParts with
  | [] => Some st
  | part :: rest =>
      match processPart enableCdnImageProcessing st part with
      | Some st' => processParts enableCdnImageProcessing st' rest
      | None => None
      end
  end.

(** [for await (const chunk of responseStream)]: the states of [currentParts]
    at each [yield], in order, and the state of the generator when the loop
    is left. *)
Fixpoint streamLoop (enableCdnImageProcessing : bool) (chunks : list Chunk)
    (st : StreamState) : option (list (list Part) * StreamState) :=
  match chunks with
  | [] => Some ([], st)
  | chunk :: rest =>
      if aborted chunk then Some ([], st)
      else
        match candidate_parts chunk with
        | None => streamLoop enableCdnImageProcessing rest st
        | Some newParts =>
            match processParts enableCdnImageProcessing st newParts with
            | None => None
            | Some st' =>
                match streamLoop enableCdnImageProcessing rest st' with
                | Some (snapshots, final) => Some (currentParts st' :: snapshots, final)
                | None => None
                end
            end
        end
  end.

(** The code after the loop: [// Handle any remaining text buffer]. *)
Definition flushRemaining (st : StreamState) : list Part :=
  if Js.truthy (Js.trim (pendingTextBuffer st)) then
    currentParts st ++
    [textPart (pendingTextBuffer st) (lastThoughtState st) (lastSignature st)]
  else currentParts st.

(** A run of the generator.  Every [yield] hands out the array
    [currentParts] itself, not a copy: [yielded] lists its contents at each
    [yield], and [finalParts] is what that same array holds when the
    generator has finished. *)
Record StreamRun := { yielded : list (list Part); finalParts : list Part }.

Definition streamGeminiResponse (enableCdnImageProcessing : bool) (chunks : list Chunk)
    : option StreamRun :=
  match streamLoop enableCdnImageProcessing chunks initialState with
  | Some (snapshots, st) =>
      Some {| yielded := snapshots; finalParts := flushRemaining st |}
  | None => None
  end.

End Assembler.

End GeminiService.

(** ** A sample platform for the scenarios *)

Module Scenario.

Definition lower_letter (c : ascii) : bool :=
  let n := nat_of_ascii c in (97 <=? n) && (n <=? 122).

Definition host_char (c : ascii) : bool :=
  lower_letter c || (nat_of_ascii c =? 46).

Definition plain_char (c : ascii) : bool :=
  let n := nat_of_ascii c in
  lower_letter c || ((48 <=? n) && (n <=? 57)) || (n =? 45) || (n =? 46)
  || ((65 <=? n) && (n <=? 90)) || (n =? 47) || (n =? 95) || (n =? 61) || (n =? 38).

(** Every label of the host starts with a letter: the host neither starts
    nor ends with a dot and has no two dots in a row. *)
Fixpoint labels_ok (at_label_start : bool) (host : string) : bool :=
  match host with
  | EmptyString => negb at_label_start
  | String c host' =>
      if nat_of_ascii c =? 46 then negb at_label_start && labels_ok true host'
      else labels_ok false host'
  end.

(** The longest prefix of [s] made of characters satisfying [f], and the rest. *)
Fixpoint span_chars (f : ascii -> bool) (s : string) : string * string :=
  match s with
  | EmptyString => (EmptyString, EmptyString)
  | String c s' =>
      if f c then let '(a, b) := span_chars f s' in (String c a, b)
      else (EmptyString, s)
  end.

(** What the [URL] constructor yields on plain [http] and [https] URLs: a
    host of lower-case letters and dots whose labels are not empty (so no
    label is a number), no credentials and no port, a path and a query of
    letters, digits and [- . _ / = &] without dot segments, and an optional
    fragment of the same characters.  Other strings are outside this sample
    and are treated as failing to parse. *)
Definition sample_URL (s : string) : option URLRecord :=
  let after_scheme :=
    match Js.strip_prefix "http://" s with
    | Some r => Some r
    | None => Js.strip_prefix "https://" s
    end in
  match after_scheme with
  | None => None
  | Some r =>
      let '(host, r1) := span_chars host_char r in
      let '(path, r2) := span_chars plain_char r1 in
      let '(query, r3) :=
        match r2 with
        | String "?" q => span_chars plain_char q
        | _ => (EmptyString, r2)
        end in
      let fragment_ok :=
        match r3 with
        | EmptyString => true
        | String "#" f => Js.all_chars plain_char f
        | String _ _ => false
        end in
      let host_ok := labels_ok true host in
      let path_ok :=
        match path with
        | EmptyString => true
        | String "/" _ => negb (Js.includes path "/.")
        | String _ _ => false
        end in
      if host_ok && path_ok && fragment_ok then
        Some {| hostname := host;
                pathname := if Js.truthy path then path else "/";
                search := if Js.truthy query then "?" +:+ query else "" |}
      else None
  end.

Definition png (result : string) : FetchSettle :=
  Responds {| status := 200; statusText := "OK";
              content_type := Some "image/png"; body := ReaderLoads result |}.

(** Every request is answered with a PNG whose base64 payload is [D1]. *)
Definition fetch_ok (u : string) (timeout : N) : FetchSettle :=
  png "data:image/png;base64,D1".

(** Every request times out. *)
Definition fetch_timeout (u : string) (timeout : N) : FetchSettle := TimedOut.

(** Every request is answered, except the one for [b], which is refused. *)
Definition fetch_b_fails (u : string) (timeout : N) : FetchSettle :=
  if String.eqb u "http://cdn.img/b.png" then Rejects "Failed to fetch"
  else png "data:image/png;base64,D1".

(** Every request is answered; the payload names the file that was asked for. *)
Definition fetch_named (u : string) (timeout : N) : FetchSettle :=
  if String.eqb u "http://cdn.img/a.png" then png "data:image/png;base64,DA"
  else png "data:image/png;base64,DB".

Definition textFragment (t : string) : SDKPart :=
  {| sdk_text := Some t; sdk_inlineData := None; sdk_thought := None;
     sdk_thoughtSignature := None |}.

Definition imageFragment (m d : string) : SDKPart :=
  {| sdk_text := None;
     sdk_inlineData := Some {| sdk_mimeType := Some m; sdk_data := Some d |};
     sdk_thought := None; sdk_thoughtSignature := None |}.

Definition chunk (parts : list SDKPart) : Chunk :=
  {| aborted := false; candidate_parts := Some parts |}.

Definition plainText (t : string) : Part := textPart t false None.

Definition image (m d : string) : Part :=
  {| text := None; inlineData := Some {| inline_mimeType := m; inline_data := d |};
     thought := Some false; thoughtSignature := None |}.

End Scenario.

(** ** Notions used to state the properties *)

(** [p] occurs in [s]. *)
Definition substring (p s : string) : Prop := exists pre post, s = pre +:+ p +:+ post.

(** The whole string [s] ends with a dot and a recognised extension, in
    either case, optionally followed by a question mark and characters
    other than line terminators. *)
Definition endsWithImageExtension (s : string) : Prop :=
  exists pre w q,
    s = pre +:+ "." +:+ w +:+ q /\
    In (Js.toLowerCase w) imageExtensions /\
    (q = "" \/
     exists r, q = "?" +:+ r /\
               Js.all_chars (fun c => negb (Js.is_line_terminator c)) r = true).

(** The word [image] occurs in [s], in either case. *)
Definition mentionsImage (s : string) : Prop :=
  exists pre w post, s = pre +:+ w +:+ post /\ Js.toLowerCase w = "image".

(** One of the known image domains occurs in the host name. *)
Definition onKnownImageDomain (host : string) : Prop :=
  exists domain, In domain knownImageDomains /\ substring domain host.

(** [s] ends with [suffix], in either case. *)
Fixpoint endsWith_ci (s suffix : string) : bool :=
  match strip_prefix_ci suffix s with
  | Some EmptyString => true
  | _ => match s with
         | EmptyString => false
         | String _ s' => endsWith_ci s' suffix
         end
  end.

(** The policy of the validator in the words of the specification, first
    match wins: reject what does not parse; accept a path with a recognised
    image extension; accept a path or a query that contains [image]; accept
    a host of the allow list; reject otherwise. *)
Definition isFetchable_spec (URL : string -> option URLRecord) (s : string) : bool :=
  match URL s with
  | None => false
  | Some u =>
      if existsb (fun e => endsWith_ci (pathname u) ("." +:+ e)) imageExtensions then true
      else if Js.includes (Js.toLowerCase (pathname u)) "image"
              || Js.includes (Js.toLowerCase (search u)) "image" then true
      else existsb (fun domain => Js.includes (hostname u) domain) knownImageDomains
  end.

(** The markup [![alt](url)] of a reference as it stands in the text. *)
Definition markupOf (img : ParsedImage) : string :=
  "![" +:+ alt img +:+ "](" +:+ url img +:+ ")".

(** Some text part of [parts] contains [m]. *)
Definition partsMention (m : string) (parts : list Part) : Prop :=
  exists p t, In p parts /\ text p = Some t /\ substring m t.

(** The text a part list renders: the texts of its parts, in part order. *)
Fixpoint renderedText (parts : list Part) : string :=
  match parts with
  | [] => ""
  | p :: ps => default "" (text p) +:+ renderedText ps
  end.

(** The texts of the text fragments of a stream, in arrival order. *)
Fixpoint fragmentText (fragments : list SDKPart) : string :=
  match fragments with
  | [] => ""
  | f :: fs => default "" (sdk_text f) +:+ fragmentText fs
  end.


(** Whether the fragment [part] triggers a resolution pass in state [st]. *)
Definition fires (URL : string -> option URLRecord) (enable : bool)
    (st : GeminiService.StreamState) (part : SDKPart) : bool :=
  match sdk_text part with
  | Some t => enable && containsCdnImages URL (GeminiService.pendingTextBuffer st +:+ t)
  | None => false
  end.

(** [parts] has no text part. *)
Definition noTextPart (parts : list Part) : Prop := Forall (fun p => text p = None) parts.

(** ** The rest of the assemblers' files *)

(** *** The request: history and user content (all three service files) *)

(** [Content] of the SDK: a role and parts. *)
Record Content := { content_role : option string; content_parts : list Part }.

(** [history.map(item => item.role === 'model'
       ? { ...item, parts: item.parts.filter(p => !p.thought) } : item)
     .filter(item => item.parts.length > 0)] *)
Definition cleanHistory (history : list Content) : list Content :=
  List.filter (fun item => 0 <? length (content_parts item))
    (map (fun item =>
            match content_role item with
            | Some r =>
                if String.eqb r "model"
                then {| content_role := content_role item;
                        content_parts :=
                          List.filter (fun p => negb (to_boolean (thought p)))
                                      (content_parts item) |}
                else item
            | None => item
            end) history).

(** [constructUserContent]: one part per image, then the prompt when it is
    not blank. *)
Definition constructUserContent (prompt : string) (images : list ImageData) : Content :=
  {| content_role := Some "user";
     content_parts :=
       map (fun img =>
              {| text := None;
                 inlineData := Some {| inline_mimeType := mimeType img;
                                       inline_data := base64Data img |};
                 thought := None; thoughtSignature := None |}) images
       ++ (if Js.truthy (Js.trim prompt)
           then [ {| text := Some prompt; inlineData := None;
                     thought := None; thoughtSignature := None |} ]
           else []) |}.

(** [[...cleanHistory, currentUserContent]] *)
Definition contentsPayload (history : list Content) (prompt : string)
    (images : list ImageData) : list Content :=
  cleanHistory history ++ [constructUserContent prompt images].

(** *** [server/geminiProxy.ts]: [generateContent] *)

Module GeminiProxyContent.

(** The function mapped over [candidate.content.parts]; [None] is the [null]
    that [filter(Boolean)] removes. *)
Definition convertPart (part : SDKPart) : option Part :=
  let signature := sdk_thoughtSignature part in
  let isThought := to_boolean (sdk_thought part) in
  match sdk_text part with
  | Some t => Some (textPart t isThought signature)
  | None =>
      match sdk_inlineData part with
      | Some d => Some (binaryPart d isThought signature)
      | None => None
      end
  end.

(** What [generateContent] does with the response: it throws
    [Error("No content generated.")] or returns [modelParts]. *)
Inductive Outcome :=
| NoContentGenerated
| Generated (modelParts : list Part).

(** The argument is [response.candidates?.[0]?.content?.parts]. *)
Definition generateContent (parts : option (list SDKPart)) : Outcome :=
  match parts with
  | None => NoContentGenerated
  | Some l => Generated (omap convertPart l)
  end.

End GeminiProxyContent.

(** *** [services/geminiService.ts]: [processSdkParts] *)

Module GeminiServiceContent.

(** An entry of [textProcessingQueue]. *)
Record QueuedText := { q_text : string; q_isThought : bool; q_signature : option string }.

Section OneShot.

Variable URL : string -> option URLRecord.
Variable fetch : string -> N -> FetchSettle.

(** The body of [for (const part of sdkParts)], on [appParts] and the queue. *)
Definition sdkStep (enableCdnProcessing : bool) (st : list Part * list QueuedText)
    (part : SDKPart) : list Part * list QueuedText :=
  let signature := sdk_thoughtSignature part in
  let isThought := to_boolean (sdk_thought part) in
  match sdk_text part with
  | Some t =>
      if enableCdnProcessing && containsCdnImages URL t
      then (st.1, st.2 ++ [ {| q_text := t; q_isThought := isThought;
                               q_signature := signature |} ])
      else (mergeText st.1 t isThought signature, st.2)
  | None =>
      match sdk_inlineData part with
      | Some d => (st.1 ++ [binaryPart d isThought signature], st.2)
      | None => st
      end
  end.

(** [Promise.all(textProcessingQueue.map(processTextWithCdnImages))]: the
    results in the order of the queue; [None] when one of the calls does not
    return. *)
Fixpoint processQueue (queue : list QueuedText) : option (list (list Part)) :=
  match queue with
  | [] => Some []
  | q :: rest =>
      match GeminiService.processTextWithCdnImages URL fetch
              (q_text q) (q_isThought q) (q_signature q) with
      | None => None
      | Some parts =>
          match processQueue rest with
          | None => None
          | Some more => Some (parts :: more)
          end
      end
  end.

Definition processSdkParts (sdkParts : list SDKPart) (enableCdnProcessing : bool)
    : option (list Part) :=
  let st := foldl (sdkStep enableCdnProcessing) ([], []) sdkParts in
  if 0 <? length st.2 then
    match processQueue st.2 with
    | None => None
    | Some processedTextParts => Some (st.1 ++ concat processedTextParts)
    end
  else Some st.1.

End OneShot.

End GeminiServiceContent.

(** *** [services/geminiService.ts], the client of the backend: the framing
    of the event stream *)

Module SseClient.

(** [s.split('\n')] *)
Fixpoint split_lines (s : string) : list string :=
  match s with
  | EmptyString => [EmptyString]
  | String c s' =>
      if Ascii.eqb c "010"
      then EmptyString :: split_lines s'
      else match split_lines s' with
           | x :: xs => String c x :: xs
           | [] => [String c EmptyString]
           end
  end.

(** One read of the body, [value] being the text the decoder gives for it:
    [buffer += value; lines = buffer.split('\n'); buffer = lines.pop() || '']
    The result is the lines handed to the event loop and the new buffer. *)
Definition feed (buffer value : string) : list string * string :=
  let lines := split_lines (buffer +:+ value) in
  (removelast lines, Js.or_else (last lines) "").

(** The reads of a whole body, from [buffer] on: all the lines handed to the
    event loop, in order, and the buffer left at the end. *)
Fixpoint feedAll (buffer : string) (values : list string) : list string * string :=
  match values with
  | [] => ([], buffer)
  | value :: rest =>
      let '(lines, buffer') := feed buffer value in
      let '(more, final) := feedAll buffer' rest in
      (lines ++ more, final)
  end.

End SseClient.

(** *** Notions used to state the further properties *)

(** A part holds a text or a binary payload, not both and not neither. *)
Definition exclusive (p : Part) : Prop :=
  (is_Some (text p) /\ inlineData p = None) \/ (text p = None /\ is_Some (inlineData p)).

(** The binary payloads of a part list, in part order. *)
Definition binaries (parts : list Part) : list InlineData := omap inlineData parts.

(** The binary payloads of the fragments that are not text, in arrival order. *)
Definition fragmentBinaries (fragments : list SDKPart) : list InlineData :=
  omap (fun f => match sdk_text f with
                 | Some _ => None
                 | None =>
                     (fun d => {| inline_mimeType := Js.or_else (sdk_mimeType d) "image/png";
                                  inline_data := Js.or_else (sdk_data d) "" |})
                     <$> sdk_inlineData f
                 end) fragments.

(** A text rebuilt from its segments and references:
    [first markup_1 segment_1 ... markup_n segment_n]. *)
Fixpoint interleave (first : string) (rest : list (ParsedImage * string)) : string :=
  match rest with
  | [] => first
  | (img, segment) :: rest' => first +:+ markupOf img +:+ interleave segment rest'
  end.

(** The character [c] does not occur in [s]. *)
Definition lacks (c : ascii) (s : string) : Prop := ~ substring (String c "") s.

(** A reference the expression of the parser matches: no closing bracket in
    the alt text, a URL that is not empty and has no closing parenthesis. *)
Definition wellFormedReference (img : ParsedImage) : Prop :=
  lacks "]" (alt img) /\ url img <> "" /\ lacks ")" (url img).

(** No reference starts at a position of [segment], [after] being the text
    that follows the segment. *)
Definition referenceFree (segment after : string) : Prop :=
  forall a b img tl,
    segment = a +:+ b -> b <> "" -> wellFormedReference img ->
    b +:+ after <> markupOf img +:+ tl.

(** [first] and [rest] cut a text at its references, read from the left:
    every element of [rest] is a reference the expression matches, and no
    reference starts inside the segment before it, nor inside the last
    segment. *)
Fixpoint cutAtReferences (first : string) (rest : list (ParsedImage * string)) : Prop :=
  match rest with
  | [] => referenceFree first ""
  | (img, segment) :: rest' =>
      referenceFree first (markupOf img +:+ interleave segment rest') /\
      wellFormedReference img /\
      cutAtReferences segment rest'
  end.

(** The segments that are not blank. *)
Definition nonBlank (segments : list string) : list string :=
  filter (fun t => Is_true (Js.truthy (Js.trim t))) segments.

(** The fragments of the chunks that have candidates, in arrival order. *)
Definition fragmentsOf (chunks : list (option (list SDKPart))) : list SDKPart :=
  concat (omap id chunks).

(** The text of a whole body, read by read. *)
Fixpoint wholeBody (values : list string) : string :=
  match values with
  | [] => ""
  | value :: rest => value +:+ wholeBody rest
  end.

(** Every element of [l] is related to the next one. *)
Fixpoint chained {A} (R : A -> A -> Prop) (l : list A) : Prop :=
  match l with
  | x :: tl => match tl with
               | y :: _ => R x y /\ chained R tl
               | [] => True
               end
  | [] => True
  end.


(** [b] keeps the binary payloads of [a], in order, and may add some. *)
Definition keepsBinaries (a b : list Part) : Prop :=
  exists more, binaries b = binaries a ++ more.

(** A chunk that arrives while the abort signal is not set. *)
Definition liveChunk (parts : option (list SDKPart)) : Chunk :=
  {| aborted := false; candidate_parts := parts |}.

(** A part that is not flagged as thought. *)
Definition notThought (p : Part) : Prop := to_boolean (thought p) = false.

(** A fragment that is text, or that carries nothing at all. *)
Definition notBinary (f : SDKPart) : Prop := is_Some (sdk_text f) \/ sdk_inlineData f = None.

(** Whether [processSdkParts] defers the fragment to its queue. *)
Definition deferred (URL : string -> option URLRecord) (enable : bool) (f : SDKPart) : bool :=
  match sdk_text f with
  | Some t => enable && containsCdnImages URL t
  | None => false
  end.

(** * Theorems *)

(** ** Strings *)

#[local] Arguments String.append !_ _ / : simpl nomatch.
#[local] Arguments imageExtensions : simpl never.
#[local] Arguments knownImageDomains : simpl never.

Lemma string_app_nil_r (s : string) : s +:+ "" = s.
Proof. induction s as [|c s IH]; simpl; [done | by rewrite IH]. Qed.

Lemma string_app_assoc (a b c : string) : (a +:+ b) +:+ c = a +:+ (b +:+ c).
Proof. induction a as [|x a IH]; simpl; [done | by rewrite IH]. Qed.

Lemma string_app_length (a b : string) :
  String.length (a +:+ b) = String.length a + String.length b.
Proof. induction a as [|x a IH]; simpl; [done | by rewrite IH]. Qed.

Lemma all_chars_app (f : ascii -> bool) (a b : string) :
  Js.all_chars f (a +:+ b) = Js.all_chars f a && Js.all_chars f b.
Proof.
  induction a as [|x a IH]; simpl; [done |].
  rewrite IH. by destruct (f x).
Qed.

Lemma trimStart_blank (s : string) :
  Js.all_chars Js.is_white_space s = true -> Js.trimStart s = "".
Proof.
  induction s as [|c s IH]; simpl; [done |].
  intros [Hc Hs]%andb_prop. rewrite Hc. by apply IH.
Qed.

Lemma trim_blank (s : string) :
  Js.all_chars Js.is_white_space s = true -> Js.trim s = "".
Proof. intros H. unfold Js.trim. by rewrite trimStart_blank. Qed.

(** ** The image reference parser *)

Lemma scan_to_shorter (stop : ascii) (s m rest : string) :
  scan_to stop s = Some (m, rest) -> String.length rest < String.length s.
Proof.
  revert m rest. induction s as [|c s IH]; simpl; intros m rest H; [done |].
  destruct (Ascii.eqb c stop).
  - injection H as <- <-. lia.
  - destruct (scan_to stop s) as [[m' rest']|] eqn:E; [|done].
    injection H as <- <-. specialize (IH _ _ eq_refl). lia.
Qed.

(** What [scan_to] returns spells its input. *)
Lemma scan_to_spell (stop : ascii) (s m rest : string) :
  scan_to stop s = Some (m, rest) -> s = m +:+ String stop rest.
Proof.
  revert m rest. induction s as [|c s IH]; simpl; intros m rest H; [done |].
  destruct (Ascii.eqb_spec c stop) as [->|Hne].
  - by injection H as <- <-.
  - destruct (scan_to stop s) as [[m' rest']|] eqn:E; [|done].
    injection H as <- <-. simpl. f_equal. by apply IH.
Qed.

(** A match spells the markup [![alt](url)] at the head of the text. *)
Lemma match_image_spell (s m1 m2 rest : string) :
  match_image s = Some (m1, m2, rest) ->
  s = "![" +:+ m1 +:+ "](" +:+ m2 +:+ ")" +:+ rest.
Proof.
  unfold match_image. intros H.
  destruct s as [|c0 s]; [done |].
  destruct (Ascii.eqb_spec c0 "!") as [->|Hne];
    [| by destruct c0 as [[][][][][][][][]]].
  destruct s as [|c1 s]; [done |].
  destruct (Ascii.eqb_spec c1 "[") as [->|Hne];
    [| by destruct c1 as [[][][][][][][][]]].
  destruct (scan_to "]" s) as [[a r1]|] eqn:E1; [|done].
  destruct r1 as [|c2 r1]; [done |].
  destruct (Ascii.eqb_spec c2 "(") as [->|Hne];
    [| by destruct c2 as [[][][][][][][][]]].
  destruct (scan_to ")" r1) as [[u r2]|] eqn:E2; [|done].
  destruct u as [|c3 u]; [done |].
  injection H as <- <- <-.
  apply scan_to_spell in E1, E2. subst s r1.
  reflexivity.
Qed.

Lemma match_image_shorter (s m1 m2 rest : string) :
  match_image s = Some (m1, m2, rest) -> String.length rest < String.length s.
Proof.
  intros H%match_image_spell. subst s.
  repeat (rewrite string_app_length || simpl). lia.
Qed.

(** The loop of the parser ends within its fuel: more fuel than the text is
    long never changes the result. *)
Lemma parse_loop_fuel (fuel1 fuel2 : nat) (before s : string)
    (texts : list string) (images : list ParsedImage) :
  String.length s < fuel1 -> String.length s < fuel2 ->
  parse_loop fuel1 before s texts images = parse_loop fuel2 before s texts images.
Proof.
  revert fuel2 before s texts images.
  induction fuel1 as [|fuel1 IH]; intros fuel2 before s texts images H1 H2; [lia |].
  destruct fuel2 as [|fuel2]; [lia |]. simpl.
  destruct (match_image s) as [[[m1 m2] rest]|] eqn:E.
  - apply match_image_shorter in E. apply IH; lia.
  - destruct s as [|c s]; [done |]. simpl in *. apply IH; lia.
Qed.

Lemma match_image_blank (s : string) :
  Js.all_chars Js.is_white_space s = true -> match_image s = None.
Proof.
  destruct s as [|c s]; [done |]. simpl.
  intros [Hc _]%andb_prop.
  by destruct c as [[][][][][][][][]].
Qed.

Lemma parse_loop_blank (fuel : nat) (before s : string) :
  Js.all_chars Js.is_white_space before = true ->
  Js.all_chars Js.is_white_space s = true ->
  parse_loop fuel before s [] [] = ([], []).
Proof.
  revert before s. induction fuel as [|fuel IH]; intros before s Hb Hs; [done |].
  simpl. rewrite (match_image_blank s Hs).
  destruct s as [|c s].
  - rewrite (trim_blank before Hb). simpl. by rewrite andb_false_r.
  - simpl in Hs. apply andb_prop in Hs as [Hc Hs].
    apply IH; [| done].
    rewrite all_chars_app, Hb. simpl. by rewrite Hc.
Qed.

(** C10. For every text that is empty or made of white space only,
    [parseMarkdownImages] returns no text part and no image reference: the
    rule that a non-blank text without references becomes a segment does not
    apply.  The parser throws for no input: it is a total function, and its
    loop ends within the length of the text, whatever the text. *)
Theorem parseMarkdownImages_blank (text : string) :
  (Js.all_chars Js.is_white_space text = true ->
   parseMarkdownImages text = {| textParts := []; imageUrls := [] |}) /\
  (forall fuel, String.length text < fuel ->
   parse_loop fuel "" text [] [] = parse_loop (S (String.length text)) "" text [] []).
Proof.
  split.
  - intros H. unfold parseMarkdownImages.
    rewrite (parse_loop_blank _ "" text eq_refl H).
    rewrite (trim_blank text H). done.
  - intros fuel Hfuel. apply parse_loop_fuel; lia.
Qed.

Lemma parseMarkdownImages_blank_witness :
  parseMarkdownImages (String " " (String "009" (String "010" "")))
  = {| textParts := []; imageUrls := [] |}.
Proof.
  apply (proj1 (parseMarkdownImages_blank (String " " (String "009" (String "010" ""))))).
  reflexivity.
Defined.

(** ** The part merger *)

Lemma insert_last {A} (init : list A) (x y : A) :
  <[pred (length (init ++ [x])) := y]> (init ++ [x]) = init ++ [y].
Proof.
  rewrite length_app. simpl.
  replace (pred (length init + 1)) with (length init + 0) by lia.
  by rewrite insert_app_r.
Qed.

Lemma list_snoc_inv {A} (l : list A) : l = [] \/ exists init x, l = init ++ [x].
Proof.
  induction l as [|a l IH] using rev_ind; [by left | right; eauto].
Qed.

(** Appending to a text part of the same thought state. *)
Lemma mergeText_append (init : list Part) (lastPart : Part) (lastText t : string)
    (isThought : bool) (signature : option string) :
  text lastPart = Some lastText ->
  to_boolean (thought lastPart) = isThought ->
  mergeText (init ++ [lastPart]) t isThought signature
  = init ++ [extendPart lastPart lastText t signature].
Proof.
  intros Ht Hth. unfold mergeText.
  rewrite last_snoc, Ht, Hth, eqb_reflx. apply insert_last.
Qed.

(** Pushing a new text part in every other case. *)
Lemma mergeText_push (parts : list Part) (t : string) (isThought : bool)
    (signature : option string) :
  (forall init lastPart lastText,
     parts = init ++ [lastPart] -> text lastPart = Some lastText ->
     to_boolean (thought lastPart) <> isThought) ->
  mergeText parts t isThought signature = parts ++ [textPart t isThought signature].
Proof.
  intros H. unfold mergeText.
  destruct (list_snoc_inv parts) as [->|(init & lp & ->)]; [done |].
  rewrite last_snoc.
  destruct (text lp) as [lt|] eqn:Ht; [|done].
  destruct (Bool.eqb_spec (to_boolean (thought lp)) isThought) as [He|Hne]; [|done].
  by destruct (H init lp lt eq_refl Ht).
Qed.

(** A text fragment after a text fragment of the same thought state is
    appended to the part the first one produced. *)
Lemma mergeText_twice (parts : list Part) (t1 t2 : string) (isThought : bool)
    (s1 s2 : option string) :
  exists init p lt,
    mergeText parts t1 isThought s1 = init ++ [p] /\
    text p = Some lt /\
    (exists before, lt = before +:+ t1) /\
    to_boolean (thought p) = isThought /\
    mergeText (mergeText parts t1 isThought s1) t2 isThought s2
    = init ++ [extendPart p lt t2 s2].
Proof.
  assert (exists init p lt,
    mergeText parts t1 isThought s1 = init ++ [p] /\ text p = Some lt /\
    (exists before, lt = before +:+ t1) /\ to_boolean (thought p) = isThought)
    as (init & p & lt & E & Ht & Hb & Hth).
  { unfold mergeText.
    destruct (list_snoc_inv parts) as [->|(init & lp & ->)].
    { exists [], (textPart t1 isThought s1), t1. repeat split; try done. by exists "". }
    rewrite last_snoc.
    destruct (text lp) as [lt|] eqn:Ht.
    - destruct (Bool.eqb_spec (to_boolean (thought lp)) isThought) as [He|Hne].
      + rewrite insert_last.
        exists init, (extendPart lp lt t1 s1), (lt +:+ t1). repeat split; try done. by exists lt.
      + exists (init ++ [lp]), (textPart t1 isThought s1), t1.
        repeat split; try done. by exists "".
    - exists (init ++ [lp]), (textPart t1 isThought s1), t1.
      repeat split; try done. by exists "". }
  exists init, p, lt. repeat split; try done.
  rewrite E. by apply mergeText_append.
Qed.

(** C4. The part merger of [server/geminiProxy.ts] follows the rules of the
    specification, for every part list and every fragment:
    - a text fragment whose predecessor is a text part of the same thought
      state is appended to that part, whose signature is overwritten only by
      a (truthy) signature of the fragment;
    - any other text fragment pushes a new text part;
    - a binary fragment always pushes a new part;
    - two consecutive text fragments flagged as thought end up in one part. *)
Theorem mergePart_rules (parts : list Part) (part : SDKPart) :
  let isThought := to_boolean (sdk_thought part) in
  let signature := sdk_thoughtSignature part in
  (forall t init lastPart lastText,
     sdk_text part = Some t ->
     parts = init ++ [lastPart] ->
     text lastPart = Some lastText ->
     to_boolean (thought lastPart) = isThought ->
     GeminiProxy.mergePart parts part
     = init ++ [ {| text := Some (lastText +:+ t);
                    inlineData := inlineData lastPart;
                    thought := thought lastPart;
                    thoughtSignature :=
                      match signature with
                      | Some (String c sig) => Some (String c sig)
                      | _ => thoughtSignature lastPart
                      end |} ]) /\
  (forall t,
     sdk_text part = Some t ->
     (forall init lastPart lastText,
        parts = init ++ [lastPart] -> text lastPart = Some lastText ->
        to_boolean (thought lastPart) <> isThought) ->
     GeminiProxy.mergePart parts part = parts ++ [textPart t isThought signature]) /\
  (forall d,
     sdk_text part = None ->
     sdk_inlineData part = Some d ->
     GeminiProxy.mergePart parts part = parts ++ [binaryPart d isThought signature]) /\
  (forall t part2 t2,
     sdk_text part = Some t -> sdk_thought part = Some true ->
     sdk_text part2 = Some t2 -> sdk_thought part2 = Some true ->
     exists init p lt,
       GeminiProxy.mergePart parts part = init ++ [p] /\
       text p = Some lt /\
       (exists before, lt = before +:+ t) /\
       GeminiProxy.mergePart (GeminiProxy.mergePart parts part) part2
       = init ++ [extendPart p lt t2 (sdk_thoughtSignature part2)]).
Proof.
  intros isThought signature. repeat split.
  - intros t init lp lt Ht -> Hlt Hth. unfold GeminiProxy.mergePart. rewrite Ht.
    fold isThought signature.
    rewrite (mergeText_append init lp lt t isThought signature Hlt Hth).
    unfold extendPart. do 3 f_equal.
    by destruct signature as [[|c sig]|].
  - intros t Ht H. unfold GeminiProxy.mergePart. rewrite Ht.
    by apply mergeText_push.
  - intros d Ht Hd. unfold GeminiProxy.mergePart. by rewrite Ht, Hd.
  - intros t part2 t2 Ht Hth Ht2 Hth2.
    assert (forall l, GeminiProxy.mergePart l part
                      = mergeText l t true (sdk_thoughtSignature part)) as E1.
    { intros l. unfold GeminiProxy.mergePart. by rewrite Ht, Hth. }
    assert (forall l, GeminiProxy.mergePart l part2
                      = mergeText l t2 true (sdk_thoughtSignature part2)) as E2'.
    { intros l. unfold GeminiProxy.mergePart. by rewrite Ht2, Hth2. }
    rewrite E2', !E1.
    destruct (mergeText_twice parts t t2 true (sdk_thoughtSignature part)
                (sdk_thoughtSignature part2))
      as (init & p & lt & E & Hp & Hb & _ & E2).
    by exists init, p, lt.
Qed.

Lemma mergePart_rules_witness :
  GeminiProxy.mergePart
    [textPart "Let me " true None]
    {| sdk_text := Some "think"; sdk_inlineData := None; sdk_thought := Some true;
       sdk_thoughtSignature := Some "sig" |}
  = [ {| text := Some "Let me think"; inlineData := None; thought := Some true;
         thoughtSignature := Some "sig" |} ].
Proof.
  apply (proj1 (mergePart_rules [textPart "Let me " true None]
           {| sdk_text := Some "think"; sdk_inlineData := None; sdk_thought := Some true;
              sdk_thoughtSignature := Some "sig" |}) "think" [] (textPart "Let me " true None)
           "Let me ");
    reflexivity.
Defined.

(** Two thought fragments in a row, from the start of a stream, are yielded
    as one part. *)
Example two_thought_fragments_one_part (t1 t2 : string) (s1 s2 : option string) :
  GeminiProxy.streamGeminiResponse
    [ Some [ {| sdk_text := Some t1; sdk_inlineData := None; sdk_thought := Some true;
                sdk_thoughtSignature := s1 |};
             {| sdk_text := Some t2; sdk_inlineData := None; sdk_thought := Some true;
                sdk_thoughtSignature := s2 |} ] ]
  = [ [ {| text := Some (t1 +:+ t2); inlineData := None; thought := Some true;
           thoughtSignature := if Js.truthy_opt s2 then s2 else spread_signature s1 |} ] ].
Proof. reflexivity. Qed.

(** ** The batch downloader *)

Section BatchDownloader.

Variable URL : string -> option URLRecord.
Variable fetch : string -> N -> FetchSettle.
Variable urls : list string.
Variable concurrency : nat.
Variable timeout : N.

(** One batch fills the slots of its own indices and no other. *)
Lemma processBatch_loop_lookup (startIndex k i : nat) (results : list (option Downloaded)) :
  length results = length urls ->
  i + k = startIndex + concurrency ->
  let results' := processBatch_loop URL fetch urls concurrency timeout startIndex k i results in
  length results' = length urls /\
  forall j, results' !! j = if decide (i <= j < length urls /\ j < startIndex + concurrency)
                            then (fun u => download_slot URL fetch u timeout) <$> urls !! j
                            else results !! j.
Proof.
  revert i results. induction k as [|k IH]; intros i results Hlen Hk; simpl.
  - split; [done |]. intros j. case_decide; [lia | done].
  - destruct (Nat.ltb_spec i (length urls)) as [Hi|Hi]; simpl.
    2:{ split; [done |]. intros j. case_decide; [lia | done]. }
    destruct (Nat.ltb_spec i (startIndex + concurrency)) as [Hi2|Hi2]; [|lia].
    destruct (urls !! i) as [u|] eqn:Eu.
    2:{ apply lookup_ge_None in Eu. lia. }
    destruct (IH (S i) (<[i := download_slot URL fetch u timeout]> results))
      as [Hlen' Hlook]; [by rewrite length_insert | lia |].
    split; [done |]. intros j. rewrite Hlook.
    destruct (decide (j = i)) as [->|Hne].
    + case_decide; [lia |]. case_decide; [|lia].
      rewrite list_lookup_insert_eq by lia. by rewrite Eu.
    + rewrite list_lookup_insert_ne by done.
      repeat case_decide; (done || lia).
Qed.

Lemma processBatch_lookup (startIndex : nat) (results : list (option Downloaded)) :
  length results = length urls ->
  let results' := processBatch URL fetch urls concurrency timeout startIndex results in
  length results' = length urls /\
  forall j, results' !! j =
            if decide (startIndex <= j < length urls /\ j < startIndex + concurrency)
            then (fun u => download_slot URL fetch u timeout) <$> urls !! j
                            else results !! j.
Proof. intros Hlen. by apply processBatch_loop_lookup. Qed.

(** With a positive step the launching loop ends, and the batches it starts
    cover every index from [i] on. *)
Lemma batches_lookup (fuel i : nat) (results : list (option Downloaded)) :
  1 <= concurrency ->
  length urls <= i + fuel ->
  length results = length urls ->
  exists starts,
    batch_starts (length urls) concurrency fuel i = Some starts /\
    let results' :=
      foldl (fun results startIndex =>
               processBatch URL fetch urls concurrency timeout startIndex results)
            results starts in
    length results' = length urls /\
    forall j, results' !! j = if decide (i <= j < length urls) then (fun u => download_slot URL fetch u timeout) <$> urls !! j
                            else results !! j.
Proof.
  intros Hc. revert i results.
  induction fuel as [|fuel IH]; intros i results Hfuel Hlen.
  - exists []. simpl. destruct (Nat.ltb_spec i (length urls)); [lia |].
    repeat split; [done |]. intros j. case_decide; [lia | done].
  - simpl. destruct (Nat.ltb_spec i (length urls)) as [Hi|Hi].
    2:{ exists []. repeat split; [done |]. intros j. case_decide; [lia | done]. }
    destruct (processBatch_lookup i results Hlen) as [Hlen1 Hlook1].
    destruct (IH (i + concurrency) _ ltac:(lia) Hlen1) as (starts & -> & Hlen2 & Hlook2).
    exists (i :: starts). simpl. repeat split; [done |].
    intros j. rewrite Hlook2, Hlook1.
    repeat case_decide; (done || lia).
Qed.

(** More fuel does not change what the launching loop computes. *)
Lemma batch_starts_fuel (n fuel fuel' i : nat) (starts : list nat) :
  batch_starts n concurrency fuel i = Some starts -> fuel <= fuel' ->
  batch_starts n concurrency fuel' i = Some starts.
Proof.
  revert fuel' i starts. induction fuel as [|fuel IH]; intros fuel' i starts H Hle.
  - destruct fuel'; simpl in *; destruct (i <? n); done.
  - destruct fuel' as [|fuel']; [lia |]. simpl in *.
    destruct (i <? n); [|done].
    destruct (batch_starts n concurrency fuel (i + concurrency)) as [l|] eqn:E; [|done].
    by rewrite (IH fuel' _ l E ltac:(lia)).
Qed.

(** With a step of zero the launching loop never ends on a non-empty list. *)
Lemma batch_starts_zero (n fuel : nat) :
  concurrency = 0 -> 0 < n -> batch_starts n concurrency fuel 0 = None.
Proof.
  intros -> Hn. induction fuel as [|fuel IH]; simpl;
    destruct (Nat.ltb_spec 0 n); try lia; [done |].
  by rewrite IH.
Qed.

(** The launching loop starts enough batches to cover the list: their
    number times the concurrency is at least the length of the list. *)
Lemma batch_starts_cover (fuel i : nat) :
  1 <= concurrency ->
  length urls <= i + fuel ->
  exists starts,
    batch_starts (length urls) concurrency fuel i = Some starts /\
    Forall (fun startIndex => startIndex < length urls) starts /\
    length urls <= i + concurrency * length starts.
Proof.
  intros Hc. revert i. induction fuel as [|fuel IH]; intros i Hfuel; simpl.
  - destruct (Nat.ltb_spec i (length urls)); [lia |].
    exists []. repeat split; [done | simpl; lia].
  - destruct (Nat.ltb_spec i (length urls)) as [Hi|Hi].
    2:{ exists []. repeat split; [done | simpl; lia]. }
    destruct (IH (i + concurrency) ltac:(lia)) as (starts & -> & Hall & Hlen).
    exists (i :: starts). repeat split; [by constructor | simpl; lia].
Qed.

(** When the validator accepts every URL, each batch has a fetch in flight
    as soon as the launching loop is over: their number is the number of
    batches, which grows with the list and is not bounded by the concurrency. *)
Lemma in_flight_one_per_batch :
  1 <= concurrency ->
  Forall (fun u => isValidImageUrl URL u = true) urls ->
  exists in_flight,
    in_flight_after_launch URL urls concurrency = Some in_flight /\
    length urls <= concurrency * length in_flight.
Proof.
  intros Hc Hvalid. unfold in_flight_after_launch.
  destruct (batch_starts_cover (length urls) 0 Hc ltac:(lia)) as (starts & -> & Hall & Hlen).
  eexists. split; [done |].
  assert (omap (fun startIndex =>
                  first_fetch URL urls concurrency startIndex concurrency startIndex) starts
          = starts) as ->; [| lia].
  clear Hlen. induction Hall as [|start starts Hstart _ IH]; [done |].
  assert (first_fetch URL urls concurrency start concurrency start = Some start) as Hhead.
  { destruct concurrency as [|c]; [lia |]. simpl.
    destruct (Nat.ltb_spec start (length urls)) as [_|]; [| lia].
    destruct (Nat.ltb_spec start (start + S c)) as [_|]; [| lia]. simpl.
    destruct (urls !! start) as [u|] eqn:Eu.
    - rewrite Forall_forall in Hvalid.
      by rewrite (Hvalid u (list_elem_of_lookup_2 _ _ _ Eu)).
    - apply lookup_ge_None in Eu. lia. }
  cbn [omap list_omap]. by rewrite Hhead, IH.
Qed.

End BatchDownloader.

(** C6, amended.  For every URL list and every concurrency of at least 1,
    [batchDownloadImages] returns an array aligned with the list:
    [results[i]] is [null] exactly when the validator rejects [urls[i]] or
    its download throws, and the record of the download otherwise.  The call
    never throws: every exception of the fetcher is caught per URL. *)
Theorem batchDownloadImages_aligned (URL : string -> option URLRecord)
    (fetch : string -> N -> FetchSettle) (urls : list string)
    (concurrency : nat) (timeout : N) :
  1 <= concurrency ->
  exists results,
    batchDownloadImages URL fetch urls concurrency timeout = Some results /\
    length results = length urls /\
    forall i u, urls !! i = Some u ->
      (results !! i = Some None /\
       (isValidImageUrl URL u = false \/
        exists e, downloadImageAsBase64 fetch u timeout = Throw e)) \/
      (exists d,
         isValidImageUrl URL u = true /\
         downloadImageAsBase64 fetch u timeout = Return d /\
         results !! i = Some (Some {| d_url := u; d_mimeType := mimeType d;
                                      d_base64Data := base64Data d |})).
Proof.
  intros Hc. unfold batchDownloadImages, batchDownloadImages_fuel.
  destruct (batches_lookup URL fetch urls concurrency timeout (length urls) 0
              (replicate (length urls) None) Hc ltac:(lia) ltac:(by rewrite length_replicate))
    as (starts & -> & Hlen & Hlook).
  eexists. split; [done |]. split; [done |].
  intros i u Hu. rewrite Hlook.
  pose proof (lookup_lt_Some _ _ _ Hu) as Hi.
  case_decide; [|lia]. rewrite Hu. simpl. unfold download_slot.
  destruct (isValidImageUrl URL u); [|left; auto].
  destruct (downloadImageAsBase64 fetch u timeout) as [d|e]; [right; eauto | left; eauto].
Qed.

Lemma batchDownloadImages_slot (URL : string -> option URLRecord)
    (fetch : string -> N -> FetchSettle) (urls : list string)
    (concurrency : nat) (timeout : N) :
  1 <= concurrency ->
  batchDownloadImages URL fetch urls concurrency timeout
  = Some (map (fun u => download_slot URL fetch u timeout) urls).
Proof.
  intros Hc. unfold batchDownloadImages, batchDownloadImages_fuel.
  destruct (batches_lookup URL fetch urls concurrency timeout (length urls) 0
              (replicate (length urls) None) Hc ltac:(lia) ltac:(by rewrite length_replicate))
    as (starts & -> & Hlen & Hlook).
  f_equal. apply list_eq. intros j. rewrite Hlook, list_lookup_fmap.
  case_decide; [done |].
  rewrite (proj2 (lookup_ge_None urls j)) by lia. simpl.
  apply lookup_replicate_None. lia.
Qed.

(** ** More on strings: prefixes, inclusion and case *)

Lemma strip_prefix_spec (p s r : string) :
  Js.strip_prefix p s = Some r <-> s = p +:+ r.
Proof.
  revert s. induction p as [|a p IH]; intros s; simpl.
  - split; [by intros [= ->] | by intros ->].
  - destruct s as [|b s]; [done |].
    destruct (Ascii.eqb_spec a b) as [->|Hne].
    + rewrite IH. split; [by intros -> | by intros [= ->]].
    + split; [done | intros [= -> _]; done].
Qed.

Lemma includes_unfold (s p : string) :
  Js.includes s p =
  match Js.strip_prefix p s with
  | Some _ => true
  | None => match s with EmptyString => false | String _ s' => Js.includes s' p end
  end.
Proof. by destruct s. Qed.

Lemma includes_spec (s p : string) :
  Js.includes s p = true <-> exists pre post, s = pre +:+ p +:+ post.
Proof.
  split.
  - induction s as [|c s IH]; rewrite includes_unfold.
    + destruct (Js.strip_prefix p "") as [r|] eqn:E; [|done].
      apply strip_prefix_spec in E. intros _. by exists "", r.
    + destruct (Js.strip_prefix p (String c s)) as [r|] eqn:E.
      * apply strip_prefix_spec in E. intros _. by exists "", r.
      * intros (pre & post & ->)%IH. by exists (String c pre), post.
  - intros (pre & post & ->). induction pre as [|c pre IH]; rewrite includes_unfold.
    + simpl. by rewrite (proj2 (strip_prefix_spec p (p +:+ post) post) eq_refl).
    + simpl. rewrite IH. by destruct (Js.strip_prefix _ _).
Qed.

Lemma toLowerCase_app (a b : string) :
  Js.toLowerCase (a +:+ b) = Js.toLowerCase a +:+ Js.toLowerCase b.
Proof. induction a as [|c a IH]; simpl; [done | by rewrite IH]. Qed.

Lemma toLowerCase_split (s a' b' : string) :
  Js.toLowerCase s = a' +:+ b' ->
  exists a b, s = a +:+ b /\ Js.toLowerCase a = a' /\ Js.toLowerCase b = b'.
Proof.
  revert s. induction a' as [|c a' IH]; intros s H; simpl in H.
  - by exists "", s.
  - destruct s as [|x s]; [done |]. simpl in H. injection H as Hc H.
    destruct (IH s H) as (a & b & -> & <- & <-).
    exists (String x a), b. simpl. by rewrite Hc.
Qed.

Lemma strip_prefix_ci_spec (p s r : string) :
  strip_prefix_ci p s = Some r <->
  exists w, s = w +:+ r /\ Js.toLowerCase w = Js.toLowerCase p.
Proof.
  revert s. induction p as [|a p IH]; intros s; simpl.
  - split.
    + intros [= ->]. by exists "".
    + intros (w & -> & Hw). by destruct w.
  - destruct s as [|b s].
    + split; [done |]. intros (w & Hs & Hw). by destruct w.
    + destruct (Ascii.eqb_spec (Js.lower_char a) (Js.lower_char b)) as [He|Hne].
      * rewrite IH. split.
        -- intros (w & -> & Hw). exists (String b w). simpl. by rewrite Hw, He.
        -- intros (w & Hs & Hw). destruct w as [|x w]; [done |].
           simpl in *. injection Hs as -> ->. injection Hw as _ Hw. by exists w.
      * split; [done |]. intros (w & Hs & Hw). destruct w as [|x w]; [done |].
        simpl in *. injection Hs as -> ->. injection Hw as Hx _. congruence.
Qed.

(** ** The image reference validator *)

Lemma extension_tail_spec (s : string) :
  extension_tail s = true <->
  s = "" \/ exists r, s = "?" +:+ r /\
                      Js.all_chars (fun c => negb (Js.is_line_terminator c)) r = true.
Proof.
  destruct s as [|c s]; simpl.
  - split; [by left | done].
  - destruct (Ascii.eqb_spec c "?") as [->|Hne].
    + split; [intros H; right; by exists s | by intros [|(r & [= ->] & H)]].
    + transitivity False; [by destruct c as [[][][][][][][][]] |].
      split; [done | by intros [|(r & [= -> _] & _)]].
Qed.

Lemma extension_here_dot (s : string) :
  extension_here (String "." s)
  = existsb (fun e => match strip_prefix_ci e s with
                      | Some t => extension_tail t
                      | None => false
                      end) imageExtensions.
Proof. reflexivity. Qed.

Lemma extension_here_other (c : ascii) (s : string) :
  c <> "."%char -> extension_here (String c s) = false.
Proof. intros H. by destruct c as [[][][][][][][][]]. Qed.

Lemma extension_here_spec (s : string) :
  extension_here s = true <->
  exists w q, s = "." +:+ w +:+ q /\ In (Js.toLowerCase w) imageExtensions /\
              extension_tail q = true.
Proof.
  destruct s as [|c s].
  { split; [done | by intros (w & q & H & _)]. }
  destruct (Ascii.eqb_spec c ".") as [->|Hne].
  2:{ rewrite extension_here_other by done.
      split; [done | by intros (w & q & [= -> _] & _)]. }
  rewrite extension_here_dot, existsb_exists. split.
  - intros (e & He & H).
    destruct (strip_prefix_ci e s) as [t|] eqn:E; [|done].
    apply strip_prefix_ci_spec in E as (w & -> & Hw).
    exists w, t. repeat split; [| done].
    rewrite Hw. clear -He. unfold imageExtensions in He. simpl in He.
    destruct He as [<-|[<-|[<-|[<-|[<-|[<-|[]]]]]]]; vm_compute; tauto.
  - intros (w & q & [= ->] & Hw & Hq).
    exists (Js.toLowerCase w). split; [done |].
    rewrite (proj2 (strip_prefix_ci_spec (Js.toLowerCase w) (w +:+ q) q)); [done |].
    exists w. split; [done |].
    clear -Hw. unfold imageExtensions in Hw. simpl in Hw.
    destruct Hw as [H|[H|[H|[H|[H|[H|[]]]]]]]; by rewrite <- H.
Qed.

Lemma validImageExtensions_test_cons (c : ascii) (s : string) :
  validImageExtensions_test (String c s)
  = extension_here (String c s) || validImageExtensions_test s.
Proof. reflexivity. Qed.

Lemma validImageExtensions_test_spec (s : string) :
  validImageExtensions_test s = true <->
  exists pre suffix, s = pre +:+ suffix /\ extension_here suffix = true.
Proof.
  split.
  - induction s as [|c s IH].
    + done.
    + rewrite validImageExtensions_test_cons. intros [H|H]%orb_prop.
      * by exists "", (String c s).
      * destruct (IH H) as (pre & suffix & -> & Hs). by exists (String c pre), suffix.
  - intros (pre & suffix & -> & H). induction pre as [|c pre IH].
    + destruct suffix as [|c suffix]; [done |].
      change ("" +:+ String c suffix) with (String c suffix).
      by rewrite validImageExtensions_test_cons, H.
    + change (String c pre +:+ suffix) with (String c (pre +:+ suffix)).
      by rewrite validImageExtensions_test_cons, IH, orb_true_r.
Qed.

(** C8, amended.  [isValidImageUrl] accepts a string exactly when it parses
    as a URL and one of the following holds of the whole URL string or of
    its host: the string ends with a recognised image extension, optionally
    followed by a query; the string contains [image] anywhere, in either
    case; the host name contains a known image domain. *)
Theorem isValidImageUrl_policy (URL : string -> option URLRecord) (s : string) :
  isValidImageUrl URL s = true <->
  exists u, URL s = Some u /\
            (endsWithImageExtension s \/ mentionsImage s \/ onKnownImageDomain (hostname u)).
Proof.
  unfold isValidImageUrl.
  assert (validImageExtensions_test s = true <-> endsWithImageExtension s) as Hext.
  { rewrite validImageExtensions_test_spec. unfold endsWithImageExtension. split.
    - intros (pre & suffix & -> & (w & q & -> & Hw & Hq)%extension_here_spec).
      apply extension_tail_spec in Hq. by exists pre, w, q.
    - intros (pre & w & q & -> & Hw & Hq).
      exists pre, ("." +:+ w +:+ q). split; [done |].
      apply extension_here_spec. exists w, q. by rewrite extension_tail_spec. }
  assert (Js.includes (Js.toLowerCase s) "image" = true <-> mentionsImage s) as Himg.
  { rewrite includes_spec. unfold mentionsImage. split.
    - intros (pre' & post' & H).
      apply toLowerCase_split in H as (pre & r & -> & _ & H).
      apply toLowerCase_split in H as (w & post & -> & Hw & _).
      by exists pre, w, post.
    - intros (pre & w & post & -> & Hw).
      exists (Js.toLowerCase pre), (Js.toLowerCase post).
      by rewrite !toLowerCase_app, Hw. }
  assert (forall h, existsb (fun domain => Js.includes h domain) knownImageDomains = true
                    <-> onKnownImageDomain h) as Hdom.
  { intros h. rewrite existsb_exists. unfold onKnownImageDomain, substring.
    by setoid_rewrite includes_spec. }
  destruct (URL s) as [u|]; [| split; [done | by intros (u & ? & _)]].
  destruct (validImageExtensions_test s) eqn:E1.
  { split; [| done]. intros _. exists u. split; [done |]. left. by apply Hext. }
  destruct (Js.includes (Js.toLowerCase s) "image") eqn:E2.
  { split; [| done]. intros _. exists u. split; [done |]. right; left. by apply Himg. }
  rewrite Hdom. split.
  - intros H. exists u. auto.
  - intros (u' & [= <-] & [H|[H|H]]); [| | done].
    + apply Hext in H. done.
    + apply Himg in H. done.
Qed.

(** ** The bounded image fetcher *)

Lemma split_comma_cons (c : ascii) (s : string) :
  Js.split_comma (String c s)
  = if Ascii.eqb c ","
    then "" :: Js.split_comma s
    else match Js.split_comma s with
         | x :: xs => String c x :: xs
         | [] => [String c ""]
         end.
Proof. reflexivity. Qed.

Lemma includes_comma_cons (c : ascii) (s : string) :
  Js.includes (String c s) "," = Ascii.eqb c "," || Js.includes s ",".
Proof.
  rewrite includes_unfold.
  change (Js.strip_prefix "," (String c s)) with (if Ascii.eqb "," c then Some s else None).
  rewrite (Ascii.eqb_sym c). by destruct (Ascii.eqb "," c).
Qed.

Lemma split_comma_plain (s : string) :
  Js.includes s "," = false -> Js.split_comma s = [s].
Proof.
  induction s as [|c s IH]; [done |].
  rewrite includes_comma_cons, split_comma_cons.
  intros [-> H]%orb_false_elim. by rewrite IH.
Qed.

Lemma split_comma_first (header rest : string) :
  Js.includes header "," = false ->
  Js.split_comma (header +:+ "," +:+ rest) = header :: Js.split_comma rest.
Proof.
  induction header as [|c header IH]; [done |].
  rewrite includes_comma_cons.
  change (String c header +:+ "," +:+ rest) with (String c (header +:+ "," +:+ rest)).
  rewrite split_comma_cons.
  intros [-> H]%orb_false_elim. by rewrite IH.
Qed.

(** The payload of a data URL is what follows its comma. *)
Lemma base64_of_result_payload (header payload : string) :
  Js.includes header "," = false -> Js.includes payload "," = false ->
  base64_of_result (header +:+ "," +:+ payload) = payload.
Proof.
  intros Hh Hp. unfold base64_of_result.
  rewrite split_comma_first, split_comma_plain by done. simpl.
  by destruct payload.
Qed.

(** C7, amended.  [downloadImageAsBase64] reports a failure by throwing:
    its own timeout error when the timer fires first, an error carrying the
    status when the response is outside 200-299, and the error of the
    transport unchanged otherwise.  When the response is in 200-299 and its
    body is read, it returns the declared content type, or [image/png] when
    the header is absent or empty, paired with the base64 payload. *)
Theorem downloadImageAsBase64_outcomes (fetch : string -> N -> FetchSettle)
    (u : string) (timeout : N) :
  (fetch u timeout = TimedOut ->
   downloadImageAsBase64 fetch u timeout = Throw DownloadTimeout) /\
  (forall m, fetch u timeout = Rejects m ->
   downloadImageAsBase64 fetch u timeout = Throw (PlatformError m)) /\
  (forall r, fetch u timeout = Responds r ->
   ~ (200 <= status r <= 299) ->
   downloadImageAsBase64 fetch u timeout = Throw (HttpError (status r) (statusText r))) /\
  (forall r, fetch u timeout = Responds r ->
   200 <= status r <= 299 ->
   match body r with
   | BlobRejects m => downloadImageAsBase64 fetch u timeout = Throw (PlatformError m)
   | ReaderFails => downloadImageAsBase64 fetch u timeout = Throw FileReaderError
   | ReaderLoads result =>
       downloadImageAsBase64 fetch u timeout
       = Return {| mimeType := match content_type r with
                               | Some (String c ct) => String c ct
                               | _ => "image/png"
                               end;
                   base64Data := base64_of_result result |} /\
       forall header payload,
         result = header +:+ "," +:+ payload ->
         Js.includes header "," = false -> Js.includes payload "," = false ->
         base64_of_result result = payload
   end).
Proof.
  unfold downloadImageAsBase64. repeat split.
  - by intros ->.
  - by intros m ->.
  - intros r -> H. unfold ok.
    destruct (Nat.leb_spec 200 (status r)), (Nat.leb_spec (status r) 299); simpl; (done || lia).
  - intros r -> H. unfold ok.
    destruct (Nat.leb_spec 200 (status r)), (Nat.leb_spec (status r) 299); simpl; try lia.
    destruct (body r); [done | done |]. split.
    + do 2 f_equal. by destruct (content_type r) as [[|c ct]|].
    + intros header payload -> Hh Hp. by apply base64_of_result_payload.
Qed.

(** ** The references of a text stand in it verbatim *)

Lemma substring_refl_app (m post : string) : substring m (m +:+ post).
Proof. by exists "", post. Qed.

Lemma substring_app_l (m a s : string) : substring m s -> substring m (a +:+ s).
Proof.
  intros (pre & post & ->). exists (a +:+ pre), post. by rewrite string_app_assoc.
Qed.

Lemma substring_app_r (m s b : string) : substring m s -> substring m (s +:+ b).
Proof.
  intros (pre & post & ->). exists pre, (post +:+ b). by rewrite !string_app_assoc.
Qed.

Lemma markup_app (a u rest : string) :
  ("![" +:+ a +:+ "](" +:+ u +:+ ")") +:+ rest = "![" +:+ a +:+ "](" +:+ u +:+ ")" +:+ rest.
Proof. repeat (progress (simpl; rewrite ?string_app_assoc)). reflexivity. Qed.

Lemma parse_loop_images (fuel : nat) (before s : string)
    (texts : list string) (images : list ParsedImage) (img : ParsedImage) :
  In img (parse_loop fuel before s texts images).2 ->
  In img images \/ substring (markupOf img) s.
Proof.
  revert before s texts images.
  induction fuel as [|fuel IH]; intros before s texts images; simpl; [by left |].
  destruct (match_image s) as [[[m1 m2] rest]|] eqn:E.
  - apply match_image_spell in E. intros [H|H]%IH.
    + apply in_app_or in H as [H|[<-|[]]]; [by left |].
      right. subst s. rewrite <- markup_app. apply substring_refl_app.
    + right. subst s. rewrite <- markup_app. by apply substring_app_l.
  - destruct s as [|c s].
    + destruct (_ && _); simpl; by left.
    + intros [H|H]%IH; [by left |]. right.
      by apply (substring_app_l _ (String c "")).
Qed.

(** Every reference the parser returns stands verbatim in the text. *)
Lemma parseMarkdownImages_verbatim (t : string) (img : ParsedImage) :
  In img (imageUrls (parseMarkdownImages t)) -> substring (markupOf img) t.
Proof.
  unfold parseMarkdownImages.
  destruct (parse_loop _ _ _ _ _) as [texts images] eqn:E. simpl.
  intros H.
  destruct (parse_loop_images (S (String.length t)) "" t [] [] img) as [[]|]; [|done].
  by rewrite E.
Qed.

(** ** The resolution pass *)

Section Resolution.

Variable URL : string -> option URLRecord.
Variable fetch : string -> N -> FetchSettle.
Variable imageUrls : list ParsedImage.
Variable isThought : bool.
Variable signature : option string.

Lemma partsMention_app_l (m : string) (parts more : list Part) :
  partsMention m parts -> partsMention m (parts ++ more).
Proof.
  intros (p & t & Hin & Ht & Hs). exists p, t. split; [| done].
  apply in_or_app. by left.
Qed.

Lemma last_snoc_inv {A} (l : list A) (x : A) :
  last l = Some x -> exists init, l = init ++ [x].
Proof.
  destruct (list_snoc_inv l) as [->|(init & y & ->)]; [done |].
  rewrite last_snoc. intros [= ->]. by exists init.
Qed.

(** One step of [forEach]: it does not throw inside the range of
    [imageUrls], keeps what the text parts mention, and puts the markup of a
    failed reference back. *)
Lemma spliceImage_keeps (parts : list Part) (index : nat)
    (imageData : option Downloaded) (img : ParsedImage) :
  imageUrls !! index = Some img ->
  exists parts',
    GeminiService.spliceImage imageUrls isThought signature parts index imageData
    = Some parts' /\
    (forall m, partsMention m parts -> partsMention m parts') /\
    (imageData = None ->
     partsMention (GeminiService.originalMarkdown img) parts').
Proof.
  intros Himg. unfold GeminiService.spliceImage.
  destruct imageData as [d|].
  { eexists. split; [done |]. split; [| done].
    intros m. apply partsMention_app_l. }
  rewrite Himg.
  set (md := GeminiService.originalMarkdown img).
  assert (exists parts', parts' = parts ++ [textPart md isThought signature] /\
            (forall m, partsMention m parts -> partsMention m parts') /\
            partsMention md parts') as Hpush.
  { eexists. split; [done |]. split; [intros m; apply partsMention_app_l |].
    exists (textPart md isThought signature), md. repeat split.
    - apply in_or_app. right. by left.
    - exists "", "". by rewrite string_app_nil_r. }
  destruct (last parts) as [lp|] eqn:El.
  2:{ destruct Hpush as (parts' & -> & H1 & H2). eauto. }
  destruct (text lp) as [lt|] eqn:Et; simpl.
  2:{ destruct Hpush as (parts' & -> & H1 & H2). eauto. }
  destruct (Js.truthy lt).
  2:{ destruct Hpush as (parts' & -> & H1 & H2). eauto. }
  apply last_snoc_inv in El as [init ->]. rewrite insert_last.
  eexists. split; [done |]. split.
  - intros m (p & t & Hin & Ht & Hs).
    apply in_app_or in Hin as [Hin|[<-|[]]].
    + exists p, t. split; [apply in_or_app; by left | done].
    + eexists _, _. split; [apply in_or_app; right; by left |].
      split; [done |]. rewrite Et in Ht. injection Ht as <-.
      by apply substring_app_r.
  - intros _. eexists _, _. split; [apply in_or_app; right; by left |].
    split; [done |].
    exists (lt +:+ (if Js.endsWith_space lt then "" else " ")), "".
    by rewrite string_app_nil_r, string_app_assoc.
Qed.

(** The whole [forEach]: no exception when the results are not longer than
    the references, and the markup of every failed reference is in the
    parts it leaves. *)
Lemma spliceImages_keeps (imageResults : list (option Downloaded)) (index : nat)
    (parts : list Part) :
  index + length imageResults <= length imageUrls ->
  exists parts',
    GeminiService.spliceImages imageUrls isThought signature index imageResults parts
    = (parts', false) /\
    (forall m, partsMention m parts -> partsMention m parts') /\
    (forall j img, imageResults !! j = Some None -> imageUrls !! (index + j) = Some img ->
                   partsMention (GeminiService.originalMarkdown img) parts').
Proof.
  revert index parts.
  induction imageResults as [|r rs IH]; intros index parts Hlen; simpl in *.
  { exists parts. repeat split; [done |]. by intros j img. }
  destruct (lookup_lt_is_Some_2 imageUrls index ltac:(lia)) as [img0 Himg0].
  destruct (spliceImage_keeps parts index r img0 Himg0) as (parts1 & -> & Hk1 & Hf1).
  destruct (IH (S index) parts1 ltac:(lia)) as (parts2 & -> & Hk2 & Hf2).
  exists parts2. repeat split; [auto |].
  intros [|j] img Hj Himg.
  - simpl in Hj. injection Hj as ->. rewrite Nat.add_0_r in Himg.
    rewrite Himg0 in Himg. injection Himg as <-. auto.
  - apply (Hf2 j img Hj). by replace (S index + j) with (index + S j) by lia.
Qed.

Lemma renderedText_app (a b : list Part) :
  renderedText (a ++ b) = renderedText a +:+ renderedText b.
Proof.
  induction a as [|p a IH]; simpl; [done |]. by rewrite IH, string_app_assoc.
Qed.

(** One step of [forEach] only adds to the text the parts render, and what
    it adds for a failed reference contains the markup. *)
Lemma spliceImage_rendered (parts parts' : list Part) (index : nat)
    (imageData : option Downloaded) :
  GeminiService.spliceImage imageUrls isThought signature parts index imageData
  = Some parts' ->
  exists added,
    renderedText parts' = renderedText parts +:+ added /\
    (imageData = None -> forall img, imageUrls !! index = Some img ->
     substring (GeminiService.originalMarkdown img) added).
Proof.
  unfold GeminiService.spliceImage.
  destruct imageData as [d|].
  { intros [= <-]. exists "". split; [| done].
    by rewrite renderedText_app. }
  destruct (imageUrls !! index) as [img0|]; [| done].
  set (md := GeminiService.originalMarkdown img0).
  assert (exists added,
            renderedText (parts ++ [textPart md isThought signature])
            = renderedText parts +:+ added /\
            substring md added) as Hpush.
  { exists md. split; [by rewrite renderedText_app; simpl; rewrite string_app_nil_r |].
    exists "", "". by rewrite string_app_nil_r. }
  destruct (last parts) as [lp|] eqn:El.
  2:{ intros [= <-]. destruct Hpush as (added & H1 & H2). exists added.
      split; [done |]. by intros _ img [= <-]. }
  destruct (text lp) as [lt|] eqn:Et; simpl.
  2:{ intros [= <-]. destruct Hpush as (added & H1 & H2). exists added.
      split; [done |]. by intros _ img [= <-]. }
  destruct (Js.truthy lt).
  2:{ intros [= <-]. destruct Hpush as (added & H1 & H2). exists added.
      split; [done |]. by intros _ img [= <-]. }
  apply last_snoc_inv in El as [init ->]. rewrite insert_last. intros [= <-].
  exists ((if Js.endsWith_space lt then "" else " ") +:+ md). split.
  - rewrite !renderedText_app. simpl. rewrite Et. simpl.
    by rewrite !string_app_nil_r, !string_app_assoc.
  - intros _ img [= <-]. exists (if Js.endsWith_space lt then "" else " "), "".
    by rewrite string_app_nil_r.
Qed.

Lemma spliceImages_rendered (imageResults : list (option Downloaded)) (index : nat)
    (parts parts' : list Part) (thrown : bool) :
  GeminiService.spliceImages imageUrls isThought signature index imageResults parts
  = (parts', thrown) ->
  exists added,
    renderedText parts' = renderedText parts +:+ added /\
    (thrown = false ->
     forall j img, imageResults !! j = Some None -> imageUrls !! (index + j) = Some img ->
                   substring (GeminiService.originalMarkdown img) added).
Proof.
  revert index parts.
  induction imageResults as [|r rs IH]; intros index parts; simpl.
  { intros [= <- <-]. exists "". split; [by rewrite string_app_nil_r |]. by intros _ j img. }
  destruct (GeminiService.spliceImage imageUrls isThought signature parts index r)
    as [parts1|] eqn:E1.
  2:{ intros [= <- <-]. exists "". split; [by rewrite string_app_nil_r | done]. }
  intros E2.
  destruct (spliceImage_rendered _ _ _ _ E1) as (a1 & Hr1 & Hm1).
  destruct (IH _ _ E2) as (a2 & Hr2 & Hm2).
  exists (a1 +:+ a2). split; [by rewrite Hr2, Hr1, string_app_assoc |].
  intros Hth [|j] img Hj Himg.
  - simpl in Hj. injection Hj as ->. rewrite Nat.add_0_r in Himg.
    apply substring_app_r. by apply Hm1.
  - apply substring_app_l. apply (Hm2 Hth j img Hj).
    by replace (S index + j) with (index + S j) by lia.
Qed.


End Resolution.

(** ** The streaming assembler *)

Section Assembler.

Variable URL : string -> option URLRecord.
Variable fetch : string -> N -> FetchSettle.

(** The resolution pass always returns: the batch downloader ends at
    concurrency 3 and [forEach] stays within the references. *)
Lemma processTextWithCdnImages_returns (t : string) (isThought : bool)
    (signature : option string) :
  let parsed := parseMarkdownImages t in
  GeminiService.processTextWithCdnImages URL fetch t isThought signature
  = Some (GeminiService.spliceImages (imageUrls parsed) isThought signature 0
            (map (fun u => download_slot URL fetch u 10000) (map url (imageUrls parsed)))
            (GeminiService.pushTextParts (textParts parsed) isThought signature)).1.
Proof.
  intros parsed. unfold GeminiService.processTextWithCdnImages. fold parsed.
  destruct (Nat.ltb_spec 0 (length (imageUrls parsed))) as [Hn|Hn].
  - rewrite batchDownloadImages_slot by lia.
    destruct (spliceImages_keeps (imageUrls parsed) isThought signature
                (map (fun u => download_slot URL fetch u 10000) (map url (imageUrls parsed)))
                0 (GeminiService.pushTextParts (textParts parsed) isThought signature))
      as (parts' & -> & _).
    { by rewrite !length_map. }
    done.
  - destruct (imageUrls parsed); [done | simpl in Hn; lia].
Qed.

Lemma lastTextIndex_None (parts : list Part) :
  GeminiService.lastTextIndex parts = None -> noTextPart parts.
Proof.
  induction parts as [|p ps IH]; simpl; [by constructor |].
  destruct (GeminiService.lastTextIndex ps); [done |].
  case_bool_decide as Hp; [done |]. intros _.
  constructor; [| by apply IH].
  destruct (text p); [| done]. by destruct Hp.
Qed.

Lemma lastTextIndex_Some (parts : list Part) (i : nat) :
  GeminiService.lastTextIndex parts = Some i ->
  exists pre p post,
    parts = pre ++ p :: post /\ length pre = i /\ is_Some (text p) /\ noTextPart post.
Proof.
  revert i. induction parts as [|q ps IH]; intros i; simpl; [done |].
  destruct (GeminiService.lastTextIndex ps) as [k|] eqn:E.
  - intros [= <-]. destruct (IH k eq_refl) as (pre & p & post & -> & <- & Hp & Hpost).
    by exists (q :: pre), p, post.
  - case_bool_decide as Hq; [| done]. intros [= <-].
    exists [], q, ps. repeat split; [done |]. by apply lastTextIndex_None.
Qed.

(** The splice removes the last text part, wherever it stands, and pushes. *)
Lemma spliceProcessed_spec (parts processed : list Part) :
  (exists pre p post,
     parts = pre ++ p :: post /\ is_Some (text p) /\ noTextPart post /\
     GeminiService.spliceProcessed parts processed = pre ++ post ++ processed) \/
  (noTextPart parts /\ GeminiService.spliceProcessed parts processed = parts ++ processed).
Proof.
  unfold GeminiService.spliceProcessed.
  destruct (GeminiService.lastTextIndex parts) as [i|] eqn:E.
  - left. destruct (lastTextIndex_Some parts i E) as (pre & p & post & -> & <- & Hp & Hpost).
    exists pre, p, post. repeat split; [done.. |].
    by rewrite delete_middle, <- app_assoc.
  - right. split; [by apply lastTextIndex_None | done].
Qed.

Lemma mergeText_frame (parts : list Part) (t : string) (isThought : bool)
    (signature : option string) :
  exists more, mergeText parts t isThought signature = removelast parts ++ more.
Proof.
  unfold mergeText.
  destruct (list_snoc_inv parts) as [->|(init & lp & ->)]; [by eexists |].
  rewrite last_snoc, removelast_last.
  destruct (text lp) as [lt|].
  - destruct (Bool.eqb _ _).
    + rewrite insert_last. by eexists.
    + rewrite <- app_assoc. by eexists.
  - rewrite <- app_assoc. by eexists.
Qed.

Lemma removelast_prefix {A} (l k : list A) : exists more, l ++ k = removelast l ++ more.
Proof.
  destruct (list_snoc_inv l) as [->|(init & y & ->)]; [by exists k |].
  rewrite removelast_last, <- app_assoc. by eexists.
Qed.

(** X17.  Every step of the client's assembler returns, and
    - a step that is not a resolution pass leaves every part but the tail
      part as it is: it extends the tail text part or pushes new parts;
    - a resolution pass removes the last text part of the list, wherever it
      stands, leaves the other parts as they are and in their order, and
      pushes the parts [processTextWithCdnImages] returns for the buffer;
    - the flush after the loop pushes at most one more part on the list and
      changes no part in it. *)
Theorem assembler_frame (enable : bool) (st : GeminiService.StreamState) (part : SDKPart) :
  (exists st',
     GeminiService.processPart URL fetch enable st part = Some st' /\
     (fires URL enable st part = false ->
      exists more,
        GeminiService.currentParts st'
        = removelast (GeminiService.currentParts st) ++ more) /\
     (fires URL enable st part = true ->
      exists t processed,
        sdk_text part = Some t /\
        GeminiService.processTextWithCdnImages URL fetch
          (GeminiService.pendingTextBuffer st +:+ t)
          (to_boolean (sdk_thought part)) (sdk_thoughtSignature part) = Some processed /\
        ((exists pre p post,
            GeminiService.currentParts st = pre ++ p :: post /\
            is_Some (text p) /\ noTextPart post /\
            GeminiService.currentParts st' = pre ++ post ++ processed) \/
         (noTextPart (GeminiService.currentParts st) /\
          GeminiService.currentParts st' = GeminiService.currentParts st ++ processed)))) /\
  (exists more,
     GeminiService.flushRemaining st = GeminiService.currentParts st ++ more /\
     length more <= 1).
Proof.
  split.
  - unfold GeminiService.processPart, fires.
    destruct (sdk_text part) as [t|].
    + destruct (enable && containsCdnImages URL _) eqn:E.
      * rewrite processTextWithCdnImages_returns.
        eexists. split; [done |]. split; [done |]. intros _. simpl.
        exists t. eexists. split; [done |].
        split; [by rewrite processTextWithCdnImages_returns |].
        destruct (spliceProcessed_spec (GeminiService.currentParts st)
          (GeminiService.spliceImages (imageUrls (parseMarkdownImages
             (GeminiService.pendingTextBuffer st +:+ t)))
             (to_boolean (sdk_thought part)) (sdk_thoughtSignature part) 0
             (map (fun u => download_slot URL fetch u 10000)
                (map url (imageUrls (parseMarkdownImages
                   (GeminiService.pendingTextBuffer st +:+ t)))))
             (GeminiService.pushTextParts (textParts (parseMarkdownImages
                (GeminiService.pendingTextBuffer st +:+ t)))
                (to_boolean (sdk_thought part)) (sdk_thoughtSignature part))).1)
          as [(pre & p & post & H1 & H2 & H3 & H4)|[H1 H2]].
        -- left. exists pre, p, post. by rewrite H4.
        -- right. by rewrite H2.
      * eexists. split; [done |]. split; [| done]. intros _. simpl.
        apply mergeText_frame.
    + destruct (sdk_inlineData part) as [d|].
      * eexists. split; [done |]. split; [| done]. intros _. simpl.
        destruct (Js.truthy _); simpl; rewrite <- ?app_assoc; apply removelast_prefix.
      * exists st. split; [done |]. split; [| done]. intros _.
        pose proof (removelast_prefix (GeminiService.currentParts st) []) as H.
        by rewrite app_nil_r in H.
  - unfold GeminiService.flushRemaining. destruct (Js.truthy _).
    + eexists. split; [done |]. simpl. lia.
    + exists []. split; [by rewrite app_nil_r | simpl; lia].
Qed.




(** X18.  For every reference with a non-empty alt text whose download
    fails (the batch result for it is [null]), the markup [![alt](url)]
    stands verbatim in the text, and the parts [processTextWithCdnImages]
    returns contain it verbatim, inside one text part and after the text of
    all the plain-text segments: it is appended to the last part built so
    far (after a separating space when that part does not end with one) or
    pushed as a text part of its own. *)
Theorem failed_reference_markup_kept (t : string) (isThought : bool)
    (signature : option string) (k : nat) (img : ParsedImage)
    (results : list (option Downloaded)) :
  imageUrls (parseMarkdownImages t) !! k = Some img ->
  batchDownloadImages URL fetch (map url (imageUrls (parseMarkdownImages t))) 3 10000
  = Some results ->
  results !! k = Some None ->
  alt img <> "" ->
  substring (markupOf img) t /\
  exists processed added,
    GeminiService.processTextWithCdnImages URL fetch t isThought signature
    = Some processed /\
    partsMention (markupOf img) processed /\
    renderedText processed
    = renderedText (GeminiService.pushTextParts (textParts (parseMarkdownImages t))
                      isThought signature) +:+ added /\
    substring (markupOf img) added.
Proof.
  intros Himg Hbatch Hk Halt. split.
  { apply parseMarkdownImages_verbatim. by apply list_elem_of_In, list_elem_of_lookup_2 with k. }
  rewrite batchDownloadImages_slot in Hbatch by lia. injection Hbatch as <-.
  rewrite processTextWithCdnImages_returns.
  destruct (spliceImages_keeps (imageUrls (parseMarkdownImages t)) isThought signature
              (map (fun u => download_slot URL fetch u 10000)
                 (map url (imageUrls (parseMarkdownImages t))))
              0 (GeminiService.pushTextParts (textParts (parseMarkdownImages t))
                   isThought signature))
    as (parts' & E & _ & Hf).
  { by rewrite !length_map. }
  destruct (spliceImages_rendered _ _ _ _ _ _ _ _ E) as (added & Hr & Hm).
  exists parts', added. rewrite E. simpl.
  specialize (Hf k img Hk Himg). specialize (Hm eq_refl k img Hk Himg).
  unfold GeminiService.originalMarkdown in Hf, Hm. unfold markupOf.
  destruct (alt img) as [|c a] eqn:Ea; [done |]. done.
Qed.

End Assembler.

(** ** The scenarios *)

Import Scenario.

Example parse_scenario :
  parseMarkdownImages "Look ![x](http://cdn.img/a.png) done"
  = {| textParts := ["Look "; " done"];
       imageUrls := [{| url := "http://cdn.img/a.png"; alt := "x" |}] |}.
Proof. reflexivity. Qed.

Example parse_malformed :
  parseMarkdownImages "![a]x![](u)![b]()"
  = {| textParts := ["![a]x"; "![b]()"]; imageUrls := [{| url := "u"; alt := "" |}] |}.
Proof. reflexivity. Qed.

Example batch_alignment :
  batchDownloadImages sample_URL fetch_b_fails
    ["http://cdn.img/a.png"; "http://cdn.img/b.png"; "http://cdn.img/c.png"] 2 10000
  = Some [ Some {| d_url := "http://cdn.img/a.png"; d_mimeType := "image/png";
                   d_base64Data := "D1" |};
           None;
           Some {| d_url := "http://cdn.img/c.png"; d_mimeType := "image/png";
                   d_base64Data := "D1" |} ].
Proof. vm_compute. reflexivity. Qed.

(** C1.  The pending text buffer is never cleared on the plain merge path,
    so its text is pushed a second time by the flush before a binary
    fragment and by the flush at the end of the stream: for the fragments
    [A] and an image the parts yielded render [AA], and for the single
    fragment [Hello] the list holds [Hello] twice when the generator ends. *)
Theorem stream_duplicates_pending_text (URL : string -> option URLRecord)
    (fetch : string -> N -> FetchSettle) (enable : bool) :
  GeminiService.streamGeminiResponse URL fetch enable
    [chunk [textFragment "A"]; chunk [imageFragment "image/png" "D"]]
  = Some {| GeminiService.yielded :=
              [ [plainText "A"];
                [plainText "A"; plainText "A"; image "image/png" "D"] ];
            GeminiService.finalParts :=
              [plainText "A"; plainText "A"; image "image/png" "D"] |} /\
  renderedText [plainText "A"; plainText "A"; image "image/png" "D"] = "AA" /\
  fragmentText [textFragment "A"; imageFragment "image/png" "D"] = "A" /\
  GeminiService.streamGeminiResponse URL fetch enable [chunk [textFragment "Hello"]]
  = Some {| GeminiService.yielded := [ [plainText "Hello"] ];
            GeminiService.finalParts := [plainText "Hello"; plainText "Hello"] |}.
Proof. by destruct enable. Qed.




(** C3.  The markup of a failed reference does not survive in the final
    output.  With the download of [b.png] failing, the first pass keeps the
    markup [![x](http://cdn.img/b.png)] in a text part; the next pass removes
    that part, its buffer being empty, and the final parts hold neither the
    markup nor the text [See ] that came with it, while the one-shot
    conversion of the same fragments keeps both.  A reference with an empty
    alt text comes back with the alt text [image]; and where the markup is
    kept, it stands after the text that followed it. *)
Theorem failed_reference_markup_not_kept :
  GeminiService.streamGeminiResponse sample_URL fetch_b_fails true
    [ chunk [textFragment "See ![x](http://cdn.img/b.png)"];
      chunk [textFragment " and ![y](http://cdn.img/a.png)"] ]
  = Some {| GeminiService.yielded :=
              [ [plainText "See ![x](http://cdn.img/b.png)"];
                [plainText " and "; image "image/png" "D1"] ];
            GeminiService.finalParts := [plainText " and "; image "image/png" "D1"] |} /\
  Js.includes (renderedText [plainText " and "; image "image/png" "D1"])
    "![x](http://cdn.img/b.png)" = false /\
  GeminiServiceContent.processSdkParts sample_URL fetch_b_fails
    [ textFragment "See ![x](http://cdn.img/b.png)";
      textFragment " and ![y](http://cdn.img/a.png)" ] true
  = Some [ plainText "See ![x](http://cdn.img/b.png)"; plainText " and ";
           image "image/png" "D1" ] /\
  GeminiService.processTextWithCdnImages sample_URL fetch_timeout
    "![](http://cdn.img/a.png)" false None
  = Some [plainText "![image](http://cdn.img/a.png)"] /\
  Js.includes "![image](http://cdn.img/a.png)" "![](http://cdn.img/a.png)" = false /\
  GeminiService.streamGeminiResponse sample_URL fetch_timeout true
    [ chunk [textFragment "Look "];
      chunk [textFragment "![x](http://cdn.img/a.png) done"] ]
  = Some {| GeminiService.yielded :=
              [ [plainText "Look "];
                [plainText "Look "; plainText " done ![x](http://cdn.img/a.png)"] ];
            GeminiService.finalParts :=
              [plainText "Look "; plainText " done ![x](http://cdn.img/a.png)"] |} /\
  renderedText [plainText "Look "; plainText " done ![x](http://cdn.img/a.png)"]
  <> "Look ![x](http://cdn.img/a.png) done".
Proof. repeat split; by vm_compute. Qed.

Lemma failed_reference_markup_kept_witness :
  substring "![x](http://cdn.img/a.png)" "Look ![x](http://cdn.img/a.png) done" /\
  exists processed added,
    GeminiService.processTextWithCdnImages sample_URL fetch_timeout
      "Look ![x](http://cdn.img/a.png) done" false None = Some processed /\
    partsMention "![x](http://cdn.img/a.png)" processed /\
    renderedText processed = "Look  done" +:+ added /\
    substring "![x](http://cdn.img/a.png)" added.
Proof.
  apply (failed_reference_markup_kept sample_URL fetch_timeout
           "Look ![x](http://cdn.img/a.png) done" false None 0
           {| url := "http://cdn.img/a.png"; alt := "x" |} [None]);
    [reflexivity | reflexivity | reflexivity | discriminate].
Defined.

(** C5.  Ten URLs at the concurrency of the application, 3: the launching
    loop starts four batches and each has issued its first fetch before any
    of them is awaited, so four fetches are in flight at once; and the
    three URLs of one batch are fetched one after the other. *)
Theorem launch_exceeds_concurrency :
  let u := "http://cdn.img/a.png" in
  in_flight_after_launch sample_URL [u; u; u; u; u; u; u; u; u; u] 3 = Some [0; 3; 6; 9] /\
  3 < length [0; 3; 6; 9] /\
  in_flight_after_launch sample_URL [u; u; u] 3 = Some [0].
Proof. repeat split; by vm_compute. Qed.

(** C6, as stated, fails for a concurrency of 0: the launching loop never
    advances, and the call returns no array whatever the fuel. *)
Lemma batch_zero_concurrency_never_returns :
  ~ exists fuel results,
      batchDownloadImages_fuel sample_URL fetch_ok fuel ["http://cdn.img/a.png"] 0 10000
      = Some results.
Proof.
  intros (fuel & results & H). unfold batchDownloadImages_fuel in H.
  rewrite batch_starts_zero in H; [done.. | simpl; lia].
Qed.

Lemma batchDownloadImages_aligned_witness :
  exists results,
    batchDownloadImages sample_URL fetch_b_fails
      ["http://cdn.img/a.png"; "http://cdn.img/b.png"; "http://cdn.img/c.png"] 2 10000
    = Some results /\
    length results = 3.
Proof.
  destruct (batchDownloadImages_aligned sample_URL fetch_b_fails
              ["http://cdn.img/a.png"; "http://cdn.img/b.png"; "http://cdn.img/c.png"]
              2 10000 ltac:(lia)) as (results & H1 & H2 & _).
  exists results. split; [exact H1 | exact H2].
Defined.

(** C7, as stated, fails: on a timeout the fetcher throws, it does not
    return a result. *)
Lemma download_throws_on_timeout :
  downloadImageAsBase64 fetch_timeout "http://cdn.img/a.png" 10000 = Throw DownloadTimeout /\
  ~ exists v, downloadImageAsBase64 fetch_timeout "http://cdn.img/a.png" 10000 = Return v.
Proof. split; [done | by intros [v H]]. Qed.

Lemma downloadImageAsBase64_outcomes_witness :
  downloadImageAsBase64 fetch_timeout "http://cdn.img/a.png" 10000 = Throw DownloadTimeout.
Proof.
  apply (proj1 (downloadImageAsBase64_outcomes fetch_timeout "http://cdn.img/a.png" 10000)).
  reflexivity.
Defined.

(** C8, as stated, fails in both directions.  A URL whose host, but
    neither path nor query, contains [image] is accepted; and a URL whose
    path has an image extension but which ends with a fragment is rejected. *)
Lemma validator_reads_whole_url :
  sample_URL "http://imagehost.example/x"
  = Some {| hostname := "imagehost.example"; pathname := "/x"; search := "" |} /\
  isFetchable_spec sample_URL "http://imagehost.example/x" = false /\
  isValidImageUrl sample_URL "http://imagehost.example/x" = true /\
  sample_URL "http://example.com/a.png#frag"
  = Some {| hostname := "example.com"; pathname := "/a.png"; search := "" |} /\
  isFetchable_spec sample_URL "http://example.com/a.png#frag" = true /\
  isValidImageUrl sample_URL "http://example.com/a.png#frag" = false.
Proof. repeat split; by vm_compute. Qed.

Lemma isValidImageUrl_policy_witness :
  isValidImageUrl sample_URL "http://cdn.img/a.png" = true.
Proof.
  apply (proj2 (isValidImageUrl_policy sample_URL "http://cdn.img/a.png")).
  exists {| hostname := "cdn.img"; pathname := "/a.png"; search := "" |}.
  split; [reflexivity |]. left.
  exists "http://cdn.img/a", "png", "". split; [reflexivity |].
  split; [right; right; left; reflexivity | left; reflexivity].
Defined.

(** C9.  The assembler changes what it has yielded in two more ways than
    by replacing the tail part.  A resolution pass removes the text part
    [ hi], which is not the tail part of the list yielded before and does
    not belong to the buffer of the pass, so its text is lost; and after the
    last [yield] the flush pushes [Hello] a second time onto the list that
    was yielded. *)
Lemma splice_removes_non_tail_part :
  GeminiService.streamGeminiResponse sample_URL fetch_named true
    [ chunk [textFragment "![x](http://cdn.img/a.png) hi"];
      chunk [textFragment "![y](http://cdn.img/b.png)"] ]
  = Some {| GeminiService.yielded :=
              [ [plainText " hi"; image "image/png" "DA"];
                [image "image/png" "DA"; image "image/png" "DB"] ];
            GeminiService.finalParts :=
              [image "image/png" "DA"; image "image/png" "DB"] |} /\
  GeminiService.streamGeminiResponse sample_URL fetch_named true
    [ chunk [textFragment "Hello"] ]
  = Some {| GeminiService.yielded := [ [plainText "Hello"] ];
            GeminiService.finalParts := [plainText "Hello"; plainText "Hello"] |} /\
  (~ exists more,
       [image "image/png" "DA"; image "image/png" "DB"]
       = removelast [plainText " hi"; image "image/png" "DA"] ++ more) /\
  [plainText "Hello"; plainText "Hello"] <> [plainText "Hello"].
Proof.
  split; [by vm_compute |]. split; [by vm_compute |]. split; [| done].
  by intros [more H].
Qed.

Lemma assembler_frame_witness :
  exists st',
    GeminiService.processPart sample_URL fetch_named true
      {| GeminiService.currentParts := [plainText " hi"; image "image/png" "DA"];
         GeminiService.pendingTextBuffer := "";
         GeminiService.lastThoughtState := false;
         GeminiService.lastSignature := None |}
      (textFragment "![y](http://cdn.img/b.png)") = Some st'.
Proof.
  destruct (proj1 (assembler_frame sample_URL fetch_named true
              {| GeminiService.currentParts := [plainText " hi"; image "image/png" "DA"];
                 GeminiService.pendingTextBuffer := "";
                 GeminiService.lastThoughtState := false;
                 GeminiService.lastSignature := None |}
              (textFragment "![y](http://cdn.img/b.png)"))) as (st' & H & _).
  exists st'. exact H.
Defined.

(** * Further properties *)

(** ** The parser splits the text and loses nothing but blank segments *)

Lemma truthy_trim (s : string) :
  Js.truthy s && Js.truthy (Js.trim s) = Js.truthy (Js.trim s).
Proof. by destruct s. Qed.

Lemma nonBlank_cons (t : string) (l : list string) :
  nonBlank (t :: l) = (if Js.truthy (Js.trim t) then [t] else []) ++ nonBlank l.
Proof.
  unfold nonBlank. rewrite filter_cons.
  destruct (Js.truthy (Js.trim t)); simpl; try case_decide; simpl in *; done.
Qed.

Lemma parse_loop_reassemble (fuel : nat) (before s : string)
    (texts : list string) (images : list ParsedImage) :
  String.length s < fuel ->
  exists first rest,
    before +:+ s = interleave first rest /\
    parse_loop fuel before s texts images
    = (texts ++ nonBlank (first :: map snd rest), images ++ map fst rest).
Proof.
  revert before s texts images.
  induction fuel as [|fuel IH]; intros before s texts images Hfuel; [lia |].
  simpl. rewrite truthy_trim.
  destruct (match_image s) as [[[m1 m2] rest_s]|] eqn:E.
  - pose proof (match_image_shorter _ _ _ _ E) as Hshort.
    apply match_image_spell in E.
    destruct (IH "" rest_s
                (if Js.truthy (Js.trim before) then texts ++ [before] else texts)
                (images ++ [{| url := m2; alt := m1 |}]) ltac:(lia))
      as (first & rest & Hre & ->).
    exists before, (({| url := m2; alt := m1 |}, first) :: rest).
    split.
    + change (interleave before (({| url := m2; alt := m1 |}, first) :: rest))
        with (before +:+ markupOf {| url := m2; alt := m1 |} +:+ interleave first rest).
      rewrite <- Hre. change ("" +:+ rest_s) with rest_s.
      unfold markupOf. cbn [url alt]. by rewrite markup_app, E.
    + simpl. rewrite (nonBlank_cons before), <- !app_assoc. simpl.
      by destruct (Js.truthy (Js.trim before)); rewrite <- ?app_assoc.
  - destruct s as [|c s].
    + exists before, []. simpl. rewrite string_app_nil_r, nonBlank_cons, !app_nil_r.
      by destruct (Js.truthy (Js.trim before)); rewrite ?app_nil_r.
    + simpl in Hfuel.
      destruct (IH (before +:+ String c "") s texts images ltac:(lia))
        as (first & rest & Hre & ->).
      exists first, rest. split; [| done].
      rewrite <- Hre, string_app_assoc. done.
Qed.

(** What the expression matches, read off the text. *)

Lemma lacks_nil (c : ascii) : lacks c "".
Proof. intros (pre & post & H). by destruct pre. Qed.

Lemma lacks_cons (c x : ascii) (s : string) :
  lacks c (String x s) <-> x <> c /\ lacks c s.
Proof.
  split.
  - intros H. split.
    + intros ->. apply H. by exists "", s.
    + intros (pre & post & ->). apply H. by exists (String x pre), post.
  - intros [Hx Hs] (pre & post & H). destruct pre as [|y pre].
    + simpl in H. by injection H as -> _.
    + simpl in H. injection H as _ ->. apply Hs. by exists pre, post.
Qed.

Lemma scan_to_lacks (stop : ascii) (s m rest : string) :
  scan_to stop s = Some (m, rest) -> lacks stop m.
Proof.
  revert m rest. induction s as [|c s IH]; simpl; intros m rest H; [done |].
  destruct (Ascii.eqb_spec c stop) as [->|Hne].
  - injection H as <- <-. apply lacks_nil.
  - destruct (scan_to stop s) as [[m' rest']|] eqn:E; [| done].
    injection H as <- <-. apply lacks_cons. split; [done | by eapply IH].
Qed.

Lemma scan_to_complete (stop : ascii) (m rest : string) :
  lacks stop m -> scan_to stop (m +:+ String stop rest) = Some (m, rest).
Proof.
  induction m as [|c m IH]; intros H.
  - simpl. by rewrite Ascii.eqb_refl.
  - apply lacks_cons in H as [Hc Hm]. simpl.
    destruct (Ascii.eqb_spec c stop) as [->|_]; [done |]. by rewrite IH.
Qed.

Lemma match_image_head (s1 : string) :
  match_image (String "!" (String "[" s1))
  = match scan_to "]" s1 with
    | Some (m1, String "(" s2) =>
        match scan_to ")" s2 with
        | Some (String c m2, rest) => Some (m1, String c m2, rest)
        | _ => None
        end
    | _ => None
    end.
Proof. reflexivity. Qed.

(** The expression matches at the head of a text exactly when the text
    starts with the markup of a well-formed reference. *)
Lemma match_image_wellFormed (s m1 m2 rest : string) :
  match_image s = Some (m1, m2, rest) -> wellFormedReference {| url := m2; alt := m1 |}.
Proof.
  unfold match_image. intros H.
  destruct s as [|c0 s]; [done |].
  destruct (Ascii.eqb_spec c0 "!") as [->|Hne];
    [| by destruct c0 as [[][][][][][][][]]].
  destruct s as [|c1 s]; [done |].
  destruct (Ascii.eqb_spec c1 "[") as [->|Hne];
    [| by destruct c1 as [[][][][][][][][]]].
  destruct (scan_to "]" s) as [[a r1]|] eqn:E1; [|done].
  destruct r1 as [|c2 r1]; [done |].
  destruct (Ascii.eqb_spec c2 "(") as [->|Hne];
    [| by destruct c2 as [[][][][][][][][]]].
  destruct (scan_to ")" r1) as [[u r2]|] eqn:E2; [|done].
  destruct u as [|c3 u]; [done |].
  injection H as <- <- <-.
  split; [by eapply scan_to_lacks |]. split; [done | by eapply scan_to_lacks].
Qed.

Lemma match_image_complete (img : ParsedImage) (tl : string) :
  wellFormedReference img ->
  match_image (markupOf img +:+ tl) = Some (alt img, url img, tl).
Proof.
  intros (Ha & Hu & Hp). unfold markupOf. rewrite markup_app.
  change ("![" +:+ alt img +:+ "](" +:+ url img +:+ ")" +:+ tl)
    with (String "!" (String "[" (alt img +:+ String "]" (String "("
            (url img +:+ String ")" tl))))).
  rewrite match_image_head, (scan_to_complete "]" _ _ Ha).
  change (match scan_to ")" (url img +:+ String ")" tl) with
          | Some (String c m2, rest) => Some (alt img, String c m2, rest)
          | _ => None
          end = Some (alt img, url img, tl)).
  rewrite (scan_to_complete ")" _ _ Hp). by destruct (url img).
Qed.

Lemma match_image_None_free (s : string) (img : ParsedImage) (tl : string) :
  match_image s = None -> wellFormedReference img -> s <> markupOf img +:+ tl.
Proof. intros Hn Hwf ->. by rewrite match_image_complete in Hn. Qed.

Lemma string_snoc_split (a b x : string) (c : ascii) :
  a +:+ b = x +:+ String c "" -> b <> "" ->
  exists b', b = b' +:+ String c "" /\ x = a +:+ b'.
Proof.
  revert x. induction a as [|y a IH]; intros x H Hb.
  - exists x. by split.
  - destruct x as [|y' x]; simpl in H.
    + injection H as _ H. destruct a; [by destruct b | done].
    + injection H as -> H. destruct (IH x H Hb) as (b' & -> & ->). by exists b'.
Qed.

Lemma referenceFree_nil (after : string) : referenceFree "" after.
Proof. intros a b img tl H Hb. destruct a; [by destruct b | done]. Qed.

Lemma referenceFree_snoc (before s : string) (c : ascii) :
  referenceFree before (String c s) -> match_image (String c s) = None ->
  referenceFree (before +:+ String c "") s.
Proof.
  intros Hfree Hnone a b img tl Hsplit Hb Hwf Heq.
  destruct (string_snoc_split a b before c (eq_sym Hsplit) Hb) as (b' & -> & ->).
  rewrite string_app_assoc in Heq. change (String c "" +:+ s) with (String c s) in Heq.
  destruct b' as [|y b'].
  - by apply (match_image_None_free (String c s) img tl).
  - by apply (Hfree a (String y b') img tl).
Qed.

(** The loop cuts the text at its references, read from the left. *)
Lemma parse_loop_cuts (fuel : nat) (before s : string)
    (texts : list string) (images : list ParsedImage) :
  String.length s < fuel ->
  referenceFree before s ->
  exists first rest,
    before +:+ s = interleave first rest /\
    cutAtReferences first rest /\
    parse_loop fuel before s texts images
    = (texts ++ nonBlank (first :: map snd rest), images ++ map fst rest).
Proof.
  revert before s texts images.
  induction fuel as [|fuel IH]; intros before s texts images Hfuel Hfree; [lia |].
  simpl. rewrite truthy_trim.
  destruct (match_image s) as [[[m1 m2] rest_s]|] eqn:E.
  - pose proof (match_image_shorter _ _ _ _ E) as Hshort.
    pose proof (match_image_wellFormed _ _ _ _ E) as Hwf.
    apply match_image_spell in E.
    destruct (IH "" rest_s
                (if Js.truthy (Js.trim before) then texts ++ [before] else texts)
                (images ++ [{| url := m2; alt := m1 |}]) ltac:(lia)
                (referenceFree_nil rest_s))
      as (first & rest & Hre & Hcut & ->).
    change ("" +:+ rest_s) with rest_s in Hre.
    assert (s = markupOf {| url := m2; alt := m1 |} +:+ interleave first rest) as Hs.
    { rewrite <- Hre. unfold markupOf. cbn [url alt]. by rewrite markup_app, E. }
    exists before, (({| url := m2; alt := m1 |}, first) :: rest).
    split; [| split].
    + change (interleave before (({| url := m2; alt := m1 |}, first) :: rest))
        with (before +:+ markupOf {| url := m2; alt := m1 |} +:+ interleave first rest).
      by rewrite <- Hs.
    + cbn [cutAtReferences]. rewrite <- Hs. done.
    + simpl. rewrite (nonBlank_cons before), <- !app_assoc. simpl.
      by destruct (Js.truthy (Js.trim before)); rewrite <- ?app_assoc.
  - destruct s as [|c s].
    + exists before, []. simpl. rewrite string_app_nil_r, nonBlank_cons, !app_nil_r.
      split; [done |]. split; [done |].
      by destruct (Js.truthy (Js.trim before)); rewrite ?app_nil_r.
    + simpl in Hfuel.
      destruct (IH (before +:+ String c "") s texts images ltac:(lia)
                  (referenceFree_snoc before s c Hfree E))
        as (first & rest & Hre & Hcut & ->).
      exists first, rest. split; [| done].
      rewrite <- Hre, string_app_assoc. done.
Qed.

(** X1.  [parseMarkdownImages] cuts the text at its image references, read
    from the left, and loses nothing but blank segments: the text is its
    segments and the markup of its references, interleaved in order; every
    reference is one the expression matches (no closing bracket in the alt
    text, a URL that is not empty and has no closing parenthesis) and no
    such reference starts inside a segment; [imageUrls] are the references
    in that order and [textParts] the segments that are not blank.  A text
    without any reference, when it is not blank, is returned once more. *)
Theorem parseMarkdownImages_reassembles (t : string) :
  exists first rest,
    t = interleave first rest /\
    cutAtReferences first rest /\
    imageUrls (parseMarkdownImages t) = map fst rest /\
    textParts (parseMarkdownImages t)
    = nonBlank (first :: map snd rest)
      ++ (match rest with [] => nonBlank [t] | _ :: _ => [] end).
Proof.
  unfold parseMarkdownImages.
  destruct (parse_loop_cuts (S (String.length t)) "" t [] [] ltac:(lia)
              (referenceFree_nil t))
    as (first & rest & Hre & Hcut & ->).
  change ("" +:+ t) with t in Hre.
  exists first, rest. split; [exact Hre |]. split; [exact Hcut |].
  destruct rest as [|[img seg] rest].
  - split; [done |]. cbn [map length Nat.eqb andb app textParts].
    rewrite (nonBlank_cons t), app_nil_r.
    by destruct (Js.truthy (Js.trim t)); rewrite ?app_nil_r.
  - split; [done |]. cbn [map length Nat.eqb andb app textParts]. by rewrite app_nil_r.
Qed.

(** X2.  A text in which the parser finds no reference and which is not
    blank comes back as two text parts, both the whole text: once from the
    code after the loop and once from the final test. *)
Theorem parseMarkdownImages_no_reference_twice (t : string) :
  imageUrls (parseMarkdownImages t) = [] ->
  Js.trim t <> "" ->
  textParts (parseMarkdownImages t) = [t; t].
Proof.
  unfold parseMarkdownImages.
  destruct (parse_loop_reassemble (S (String.length t)) "" t [] [] ltac:(lia))
    as (first & rest & Hre & ->).
  change ("" +:+ t) with t in Hre.
  intros Himg Hne.
  destruct rest as [|[img seg] rest]; [| done].
  cbn [map interleave] in Hre. subst first.
  cbn [map length Nat.eqb andb app textParts].
  rewrite (nonBlank_cons t). destruct (Js.trim t); [done |]. done.
Qed.

Lemma parseMarkdownImages_no_reference_twice_witness :
  textParts (parseMarkdownImages "hello") = ["hello"; "hello"].
Proof.
  apply parseMarkdownImages_no_reference_twice; [reflexivity | discriminate].
Defined.

(** ** The batch downloader does not depend on the concurrency *)

(** X3.  For concurrencies of at least 1 the array [batchDownloadImages]
    returns is the same whatever the concurrency: the size of the batches
    changes how the downloads are scheduled, never what is returned. *)
Theorem batchDownloadImages_any_concurrency (URL : string -> option URLRecord)
    (fetch : string -> N -> FetchSettle) (urls : list string) (c1 c2 : nat) (timeout : N) :
  1 <= c1 -> 1 <= c2 ->
  batchDownloadImages URL fetch urls c1 timeout
  = batchDownloadImages URL fetch urls c2 timeout.
Proof. intros H1 H2. by rewrite !batchDownloadImages_slot. Qed.

Lemma batchDownloadImages_any_concurrency_witness :
  batchDownloadImages sample_URL fetch_b_fails
    ["http://cdn.img/a.png"; "http://cdn.img/b.png"; "http://cdn.img/c.png"] 1 10000
  = batchDownloadImages sample_URL fetch_b_fails
    ["http://cdn.img/a.png"; "http://cdn.img/b.png"; "http://cdn.img/c.png"] 3 10000.
Proof. apply batchDownloadImages_any_concurrency; lia. Defined.

(** ** The framing of the event stream does not depend on the reads *)

Lemma split_lines_cons (c : ascii) (s : string) :
  SseClient.split_lines (String c s)
  = if Ascii.eqb c "010"
    then "" :: SseClient.split_lines s
    else match SseClient.split_lines s with
         | x :: xs => String c x :: xs
         | [] => [String c ""]
         end.
Proof. reflexivity. Qed.

Lemma split_lines_nonempty (s : string) : SseClient.split_lines s <> [].
Proof.
  destruct s as [|c s]; [done |]. rewrite split_lines_cons.
  destruct (Ascii.eqb c "010"); [done |]. by destruct (SseClient.split_lines s).
Qed.

Lemma removelast_cons_nonempty {A} (x : A) (l : list A) :
  l <> [] -> removelast (x :: l) = x :: removelast l.
Proof. by destruct l. Qed.

Lemma last_cons_nonempty {A} (x : A) (l : list A) : l <> [] -> last (x :: l) = last l.
Proof. by destruct l. Qed.

(** Splitting a text that goes on: the lines that are complete stay, and the
    last, open line is continued. *)
Lemma split_lines_app (a b : string) :
  SseClient.split_lines (a +:+ b)
  = removelast (SseClient.split_lines a)
    ++ SseClient.split_lines (default "" (last (SseClient.split_lines a)) +:+ b).
Proof.
  induction a as [|c a IH]; [done |].
  change (String c a +:+ b) with (String c (a +:+ b)).
  pose proof (split_lines_nonempty a) as Hne.
  rewrite !split_lines_cons. destruct (Ascii.eqb c "010") eqn:Ec.
  - rewrite removelast_cons_nonempty, last_cons_nonempty by done.
    by rewrite IH.
  - rewrite IH. destruct (SseClient.split_lines a) as [|x xs]; [done |].
    destruct xs as [|y ys].
    + change (removelast [x]) with (@nil string).
      change (removelast [String c x]) with (@nil string).
      change (default "" (last [x])) with x.
      change (default "" (last [String c x]) +:+ b) with (String c (x +:+ b)).
      rewrite !app_nil_l, (split_lines_cons c), Ec. done.
    + rewrite (removelast_cons_nonempty x), (removelast_cons_nonempty (String c x)) by done.
      rewrite !last_cons_nonempty by done. done.
Qed.

Lemma last_split_lines_open (s : string) :
  SseClient.split_lines (default "" (last (SseClient.split_lines s)))
  = [default "" (last (SseClient.split_lines s))].
Proof.
  induction s as [|c s IH]; [done |].
  pose proof (split_lines_nonempty s) as Hne.
  rewrite split_lines_cons. destruct (Ascii.eqb c "010") eqn:Ec.
  - by rewrite last_cons_nonempty.
  - destruct (SseClient.split_lines s) as [|x xs]; [done |].
    destruct xs as [|y ys].
    + change (default "" (last [String c x])) with (String c x).
      change (default "" (last [x])) with x in IH.
      by rewrite split_lines_cons, Ec, IH.
    + rewrite !last_cons_nonempty in * by done. done.
Qed.

Lemma feedAll_from (buffer : string) (values : list string) :
  SseClient.split_lines buffer = [buffer] ->
  SseClient.feedAll buffer values
  = (removelast (SseClient.split_lines (buffer +:+ wholeBody values)),
     default "" (last (SseClient.split_lines (buffer +:+ wholeBody values)))).
Proof.
  revert buffer. induction values as [|v vs IH]; intros buffer Hopen.
  - simpl. by rewrite string_app_nil_r, Hopen.
  - cbn [SseClient.feedAll wholeBody]. unfold SseClient.feed.
    pose proof (split_lines_nonempty (buffer +:+ v)) as Hne.
    assert (Js.or_else (last (SseClient.split_lines (buffer +:+ v))) ""
            = default "" (last (SseClient.split_lines (buffer +:+ v)))) as ->.
    { destruct (last _) as [[|c x]|]; done. }
    rewrite IH by apply last_split_lines_open.
    rewrite <- string_app_assoc, (split_lines_app (buffer +:+ v)).
    set (open := default "" (last (SseClient.split_lines (buffer +:+ v)))).
    pose proof (split_lines_nonempty (open +:+ wholeBody vs)) as Hne2.
    f_equal.
    + destruct (list_snoc_inv (SseClient.split_lines (open +:+ wholeBody vs)))
        as [E|(init & x & E)]; [done |].
      by rewrite E, app_assoc, !removelast_last.
    + destruct (list_snoc_inv (SseClient.split_lines (open +:+ wholeBody vs)))
        as [E|(init & x & E)]; [done |].
      by rewrite E, app_assoc, !last_snoc.
Qed.

(** X15.  The lines the client of the backend hands to its event loop, and
    the buffer it keeps, depend on the text of the body only, not on how
    the reads cut it: over all reads the lines are the complete lines of
    the whole body, and the buffer is its last, unfinished line. *)
Theorem sse_framing_independent_of_reads (values : list string) :
  SseClient.feedAll "" values
  = (removelast (SseClient.split_lines (wholeBody values)),
     default "" (last (SseClient.split_lines (wholeBody values)))).
Proof. by rewrite feedAll_from. Qed.

(** ** The history that is sent back *)

Lemma filter_notThought_idem (l : list Part) :
  List.filter (fun p => negb (to_boolean (thought p)))
    (List.filter (fun p => negb (to_boolean (thought p))) l)
  = List.filter (fun p => negb (to_boolean (thought p))) l.
Proof.
  induction l as [|p l IH]; [done |]. simpl.
  destruct (negb (to_boolean (thought p))) eqn:E; [| done].
  simpl. by rewrite E, IH.
Qed.

(** X16.  [cleanHistory] is idempotent; what it returns has no item without
    parts and no thought part in an item of the model; and it keeps every
    other item that has parts as it is. *)
Theorem cleanHistory_clean (history : list Content) :
  cleanHistory (cleanHistory history) = cleanHistory history /\
  Forall (fun item =>
            content_parts item <> [] /\
            (content_role item = Some "model" -> Forall notThought (content_parts item)))
         (cleanHistory history) /\
  (forall item, In item history ->
     content_role item <> Some "model" -> content_parts item <> [] ->
     In item (cleanHistory history)).
Proof.
  unfold cleanHistory.
  set (clean := fun item : Content => match content_role item with
                                      | Some r => if String.eqb r "model" then _ else item
                                      | None => item
                                      end).
  assert (forall item, clean (clean item) = clean item) as Hidem.
  { intros item. unfold clean at 2.
    destruct (content_role item) as [r|] eqn:Er.
    - destruct (String.eqb r "model") eqn:Em.
      + unfold clean. cbn [content_role content_parts]. rewrite Er, Em.
        by rewrite filter_notThought_idem.
      + unfold clean. by rewrite Er, Em.
    - unfold clean. by rewrite Er. }
  repeat split.
  - induction history as [|item history IH]; [done |].
    cbn [map List.filter].
    destruct (0 <? length (content_parts (clean item))) eqn:El; [| done].
    cbn [map List.filter]. by rewrite Hidem, El, IH.
  - apply Forall_forall. intros item Hin.
    apply list_elem_of_In, filter_In in Hin as [Hin Hlen].
    apply in_map_iff in Hin as (item0 & <- & _).
    split.
    + intros E. rewrite E in Hlen. done.
    + unfold clean.
      destruct (content_role item0) as [r|] eqn:Er; [| by rewrite Er].
      destruct (String.eqb_spec r "model") as [->|Hne].
      * intros _. cbn [content_parts]. apply Forall_forall. intros p Hp.
        apply list_elem_of_In, filter_In in Hp as [_ Hp].
        unfold notThought. by destruct (to_boolean (thought p)).
      * rewrite Er. intros [= ->]. done.
  - intros item Hin Hrole Hparts. apply filter_In. split.
    + apply in_map_iff. exists item. split; [| done].
      unfold clean.
      destruct (content_role item) as [r|] eqn:Er; [| done].
      destruct (String.eqb_spec r "model") as [->|Hne]; done.
    + destruct (content_parts item); [done | done].
Qed.

(** ** The server's assembler keeps text and binary payloads in order *)

Lemma fragmentText_app (a b : list SDKPart) :
  fragmentText (a ++ b) = fragmentText a +:+ fragmentText b.
Proof. induction a as [|f a IH]; simpl; [done |]. by rewrite IH, string_app_assoc. Qed.

Lemma fragmentBinaries_app (a b : list SDKPart) :
  fragmentBinaries (a ++ b) = fragmentBinaries a ++ fragmentBinaries b.
Proof. apply omap_app. Qed.

Lemma binaries_app (a b : list Part) : binaries (a ++ b) = binaries a ++ binaries b.
Proof. apply omap_app. Qed.

Lemma mergeText_rendered (parts : list Part) (t : string) (isThought : bool)
    (signature : option string) :
  renderedText (mergeText parts t isThought signature) = renderedText parts +:+ t.
Proof.
  assert (renderedText (parts ++ [textPart t isThought signature])
          = renderedText parts +:+ t) as Hpush.
  { rewrite renderedText_app. simpl. by rewrite string_app_nil_r. }
  unfold mergeText.
  destruct (list_snoc_inv parts) as [->|(init & lp & ->)]; [done |].
  rewrite last_snoc.
  destruct (text lp) as [lt|] eqn:Et; [| done].
  destruct (Bool.eqb _ _); [| done].
  rewrite insert_last, !renderedText_app. simpl. rewrite Et. simpl.
  by rewrite !string_app_nil_r, !string_app_assoc.
Qed.

Lemma mergeText_binaries (parts : list Part) (t : string) (isThought : bool)
    (signature : option string) :
  binaries (mergeText parts t isThought signature) = binaries parts.
Proof.
  assert (binaries (parts ++ [textPart t isThought signature]) = binaries parts) as Hpush.
  { rewrite binaries_app. simpl. by rewrite app_nil_r. }
  unfold mergeText.
  destruct (list_snoc_inv parts) as [->|(init & lp & ->)]; [done |].
  rewrite last_snoc.
  destruct (text lp) as [lt|] eqn:Et; [| done].
  destruct (Bool.eqb _ _); [| done].
  rewrite insert_last, !binaries_app. done.
Qed.

Lemma mergePart_payloads (parts : list Part) (f : SDKPart) :
  renderedText (GeminiProxy.mergePart parts f)
  = renderedText parts +:+ fragmentText [f] /\
  binaries (GeminiProxy.mergePart parts f) = binaries parts ++ fragmentBinaries [f].
Proof.
  unfold GeminiProxy.mergePart, fragmentBinaries. simpl.
  destruct (sdk_text f) as [t|]; simpl.
  - rewrite mergeText_rendered, mergeText_binaries, string_app_nil_r, app_nil_r. done.
  - destruct (sdk_inlineData f) as [d|]; simpl.
    + rewrite renderedText_app, binaries_app. simpl.
      by rewrite !string_app_nil_r.
    + by rewrite string_app_nil_r, app_nil_r.
Qed.

Lemma foldl_mergePart_payloads (fs : list SDKPart) (parts : list Part) :
  renderedText (foldl GeminiProxy.mergePart parts fs)
  = renderedText parts +:+ fragmentText fs /\
  binaries (foldl GeminiProxy.mergePart parts fs) = binaries parts ++ fragmentBinaries fs.
Proof.
  revert parts. induction fs as [|f fs IH]; intros parts.
  - simpl. by rewrite string_app_nil_r, app_nil_r.
  - cbn [foldl]. destruct (IH (GeminiProxy.mergePart parts f)) as [-> ->].
    destruct (mergePart_payloads parts f) as [-> ->].
    change (f :: fs) with ([f] ++ fs).
    by rewrite fragmentText_app, fragmentBinaries_app, string_app_assoc, app_assoc.
Qed.

Lemma proxy_streamLoop_last (chunks : list (option (list SDKPart))) (parts l : list Part) :
  last (GeminiProxy.streamLoop chunks parts) = Some l ->
  renderedText l = renderedText parts +:+ fragmentText (fragmentsOf chunks) /\
  binaries l = binaries parts ++ fragmentBinaries (fragmentsOf chunks).
Proof.
  revert parts. induction chunks as [|[fs|] chunks IH]; intros parts; [done | |].
  - cbn [GeminiProxy.streamLoop]. unfold fragmentsOf. cbn [omap list_omap id concat].
    fold (fragmentsOf chunks).
    rewrite fragmentText_app, fragmentBinaries_app.
    destruct (foldl_mergePart_payloads fs parts) as [Hr Hb].
    destruct (GeminiProxy.streamLoop chunks (foldl GeminiProxy.mergePart parts fs))
      as [|y ys] eqn:E.
    + intros [= <-].
      assert (fragmentsOf chunks = []) as ->.
      { clear -E. revert E. generalize (foldl GeminiProxy.mergePart parts fs).
        induction chunks as [|[gs|] chunks IH]; intros q; [done | done |].
        intros H. apply (IH q H). }
      simpl. by rewrite Hr, Hb, string_app_nil_r, app_nil_r.
    + rewrite last_cons_nonempty by done. rewrite <- E. intros H.
      destruct (IH _ H) as [-> ->]. by rewrite Hr, Hb, string_app_assoc, app_assoc.
  - apply IH.
Qed.

(** X4.  The server's streaming assembler keeps the order of what it
    receives: the list it yields last renders the texts of all the text
    fragments, in arrival order, and holds the binary payloads of all the
    binary fragments, in arrival order. *)
Theorem proxy_stream_preserves_order (chunks : list (option (list SDKPart)))
    (l : list Part) :
  last (GeminiProxy.streamGeminiResponse chunks) = Some l ->
  renderedText l = fragmentText (fragmentsOf chunks) /\
  binaries l = fragmentBinaries (fragmentsOf chunks).
Proof. intros H. by destruct (proxy_streamLoop_last chunks [] l H) as [-> ->]. Qed.

Lemma proxy_stream_preserves_order_witness :
  renderedText [plainText "AB"; image "image/png" "D"; plainText "C"] = "ABC" /\
  binaries [plainText "AB"; image "image/png" "D"; plainText "C"]
  = [ {| inline_mimeType := "image/png"; inline_data := "D" |} ].
Proof.
  apply (proxy_stream_preserves_order
           [ Some [textFragment "A"; textFragment "B"]; None;
             Some [imageFragment "image/png" "D"; textFragment "C"] ]).
  reflexivity.
Defined.

Lemma mergeText_length (parts : list Part) (t : string) (isThought : bool)
    (signature : option string) :
  length parts <= length (mergeText parts t isThought signature) <= S (length parts).
Proof.
  unfold mergeText. destruct (last parts) as [lp|].
  - destruct (text lp); [destruct (Bool.eqb _ _) |];
      rewrite ?length_insert, ?length_app; simpl; lia.
  - rewrite length_app. simpl. lia.
Qed.

Lemma foldl_mergePart_length (fs : list SDKPart) (parts : list Part) :
  length (foldl GeminiProxy.mergePart parts fs)
  <= length parts + length (omap GeminiProxyContent.convertPart fs).
Proof.
  revert parts. induction fs as [|f fs IH]; intros parts; [simpl; lia |].
  cbn [foldl omap list_omap]. specialize (IH (GeminiProxy.mergePart parts f)).
  unfold GeminiProxy.mergePart, GeminiProxyContent.convertPart in *.
  destruct (sdk_text f) as [t|].
  - pose proof (mergeText_length parts t (to_boolean (sdk_thought f))
                  (sdk_thoughtSignature f)). simpl. lia.
  - destruct (sdk_inlineData f); simpl in *; rewrite ?length_app in IH; simpl in IH; lia.
Qed.

Lemma convertPart_payloads (fs : list SDKPart) :
  renderedText (omap GeminiProxyContent.convertPart fs) = fragmentText fs /\
  binaries (omap GeminiProxyContent.convertPart fs) = fragmentBinaries fs.
Proof.
  induction fs as [|f fs [IHr IHb]]; [done |].
  unfold fragmentBinaries, binaries in *.
  cbn [omap list_omap fragmentText].
  assert (GeminiProxyContent.convertPart f
          = match sdk_text f with
            | Some t => Some (textPart t (to_boolean (sdk_thought f)) (sdk_thoughtSignature f))
            | None =>
                match sdk_inlineData f with
                | Some d => Some (binaryPart d (to_boolean (sdk_thought f))
                                    (sdk_thoughtSignature f))
                | None => None
                end
            end) as -> by done.
  destruct (sdk_text f) as [t|] eqn:Et.
  - cbn [renderedText omap list_omap text inlineData textPart default].
    by rewrite IHr, IHb.
  - destruct (sdk_inlineData f) as [d|] eqn:Ed.
    + cbn [renderedText omap list_omap text inlineData binaryPart default fmap option_fmap
           option_map].
      rewrite IHr, IHb. done.
    + cbn [default fmap option_fmap option_map]. by rewrite IHr, IHb.
Qed.

(** X5.  The server's one-shot [generateContent] and its streaming assembler
    agree on the content: the parts [generateContent] returns, one per
    fragment that carries text or binary data, render the same text and hold
    the same binary payloads as the list the stream builds from the same
    fragments, which is never longer. *)
Theorem proxy_generateContent_agrees_with_stream (fs : list SDKPart) :
  exists modelParts,
    GeminiProxyContent.generateContent (Some fs) = GeminiProxyContent.Generated modelParts /\
    renderedText modelParts = renderedText (foldl GeminiProxy.mergePart [] fs) /\
    binaries modelParts = binaries (foldl GeminiProxy.mergePart [] fs) /\
    length (foldl GeminiProxy.mergePart [] fs) <= length modelParts.
Proof.
  eexists. split; [done |].
  destruct (foldl_mergePart_payloads fs []) as [-> ->]. simpl.
  destruct (convertPart_payloads fs) as [Hr Hb].
  repeat split; [done | done | apply (foldl_mergePart_length fs [])].
Qed.

(** ** Chains of snapshots *)


Lemma chained_snoc {A} (R : A -> A -> Prop) (l : list A) (y : A) :
  chained R l -> (forall x, last l = Some x -> R x y) -> chained R (l ++ [y]).
Proof.
  induction l as [|x [|z l] IH]; intros Hl Hlast.
  - done.
  - split; [by apply Hlast | done].
  - destruct Hl as [Hxz Hl]. split; [done |]. apply IH; [done |].
    intros w Hw. apply Hlast. by rewrite last_cons_nonempty.
Qed.

Lemma chained_tail {A} (R : A -> A -> Prop) (x : A) (l : list A) :
  chained R (x :: l) -> chained R l.
Proof. destruct l as [|y l]; [done |]. by intros [_ H]. Qed.

(** ** The server's assembler: what its snapshots keep *)

Section ProxyRuns.

Variable Inv : list Part -> Prop.
Variable R : list Part -> list Part -> Prop.
Hypothesis R_refl : forall a, R a a.
Hypothesis R_trans : forall a b c, R a b -> R b c -> R a c.
Hypothesis step_ok : forall parts f,
  Inv parts -> Inv (GeminiProxy.mergePart parts f) /\ R parts (GeminiProxy.mergePart parts f).

Lemma proxy_foldl_ok (fs : list SDKPart) (parts : list Part) :
  Inv parts ->
  Inv (foldl GeminiProxy.mergePart parts fs) /\ R parts (foldl GeminiProxy.mergePart parts fs).
Proof.
  revert parts. induction fs as [|f fs IH]; intros parts Hinv; [by split |].
  cbn [foldl]. destruct (step_ok parts f Hinv) as [H1 H2].
  destruct (IH _ H1) as [H3 H4]. split; [done | by eapply R_trans].
Qed.

Lemma proxy_streamLoop_ok (chunks : list (option (list SDKPart))) (parts : list Part) :
  Inv parts ->
  Forall Inv (GeminiProxy.streamLoop chunks parts) /\
  chained R (parts :: GeminiProxy.streamLoop chunks parts).
Proof.
  revert parts. induction chunks as [|[fs|] chunks IH]; intros parts Hinv.
  - by split.
  - cbn [GeminiProxy.streamLoop].
    destruct (proxy_foldl_ok fs parts Hinv) as [H1 H2].
    destruct (IH _ H1) as [H3 H4].
    split; [by constructor | by split].
  - by apply IH.
Qed.

End ProxyRuns.

Lemma mergeText_exclusive (parts : list Part) (t : string) (isThought : bool)
    (signature : option string) :
  Forall exclusive parts -> Forall exclusive (mergeText parts t isThought signature).
Proof.
  intros Hex.
  assert (exclusive (textPart t isThought signature)) as Hnew.
  { unfold exclusive. left. split; [by eexists | done]. }
  assert (Forall exclusive (parts ++ [textPart t isThought signature])) as Hpush.
  { apply Forall_app. split; [done |]. by constructor. }
  unfold mergeText.
  destruct (last parts) as [lp|] eqn:El; [| done].
  destruct (text lp) as [lt|] eqn:Et; [| done].
  destruct (Bool.eqb _ _); [| done].
  apply last_snoc_inv in El as [init ->].
  rewrite insert_last. apply Forall_app in Hex as [Hinit Hlp].
  apply Forall_app. split; [done |]. constructor; [| done].
  apply Forall_inv in Hlp. unfold exclusive in *. left. split; [by eexists |].
  cbn [extendPart inlineData].
  destruct Hlp as [[_ H]|[H _]]; [done | by rewrite Et in H].
Qed.


Lemma mergePart_exclusive (parts : list Part) (f : SDKPart) :
  Forall exclusive parts -> Forall exclusive (GeminiProxy.mergePart parts f).
Proof.
  intros Hex. unfold GeminiProxy.mergePart.
  destruct (sdk_text f) as [t|]; [by apply mergeText_exclusive |].
  destruct (sdk_inlineData f) as [d|]; [| done].
  apply Forall_app. split; [done |]. constructor; [| done].
  unfold exclusive. right. split; [done | by eexists].
Qed.




(** ** The client's assembler: what its snapshots keep *)

Section ClientRuns.

Variable URL : string -> option URLRecord.
Variable fetch : string -> N -> FetchSettle.
Variable enable : bool.
Variable Inv : list Part -> Prop.
Variable R : list Part -> list Part -> Prop.
Hypothesis R_refl : forall a, R a a.
Hypothesis R_trans : forall a b c, R a b -> R b c -> R a c.
Hypothesis step_ok : forall st part st',
  Inv (GeminiService.currentParts st) ->
  GeminiService.processPart URL fetch enable st part = Some st' ->
  Inv (GeminiService.currentParts st') /\
  R (GeminiService.currentParts st) (GeminiService.currentParts st').

Lemma client_processParts_ok (fs : list SDKPart) (st st' : GeminiService.StreamState) :
  Inv (GeminiService.currentParts st) ->
  GeminiService.processParts URL fetch enable st fs = Some st' ->
  Inv (GeminiService.currentParts st') /\
  R (GeminiService.currentParts st) (GeminiService.currentParts st').
Proof.
  revert st. induction fs as [|f fs IH]; intros st Hinv; simpl.
  - intros [= <-]. by split.
  - destruct (GeminiService.processPart URL fetch enable st f) as [st1|] eqn:E; [| done].
    intros H. destruct (step_ok _ _ _ Hinv E) as [H1 H2].
    destruct (IH _ H1 H) as [H3 H4]. split; [done | by eapply R_trans].
Qed.

Lemma client_streamLoop_ok (chunks : list Chunk) (st final : GeminiService.StreamState)
    (snaps : list (list Part)) :
  Inv (GeminiService.currentParts st) ->
  GeminiService.streamLoop URL fetch enable chunks st = Some (snaps, final) ->
  Forall Inv snaps /\
  chained R (GeminiService.currentParts st :: snaps) /\
  last (GeminiService.currentParts st :: snaps) = Some (GeminiService.currentParts final).
Proof.
  revert st snaps. induction chunks as [|c chunks IH]; intros st snaps Hinv; simpl.
  - intros [= <- <-]. by repeat split.
  - destruct (aborted c); [intros [= <- <-]; by repeat split |].
    destruct (candidate_parts c) as [fs|]; [| by apply IH].
    destruct (GeminiService.processParts URL fetch enable st fs) as [st1|] eqn:E; [| done].
    destruct (client_processParts_ok _ _ _ Hinv E) as [H1 H2].
    destruct (GeminiService.streamLoop URL fetch enable chunks st1) as [[snaps1 final1]|] eqn:E1;
      [| done].
    intros [= <- <-]. destruct (IH _ _ H1 E1) as (H3 & H4 & H5).
    split; [by constructor |]. split; [by split |].
    by rewrite last_cons_nonempty.
Qed.

End ClientRuns.

Lemma noText_binaries_delete (pre post : list Part) (p : Part) :
  exclusive p -> is_Some (text p) ->
  binaries (pre ++ p :: post) = binaries (pre ++ post).
Proof.
  intros Hex Ht. rewrite !binaries_app. f_equal. unfold binaries. cbn [omap list_omap].
  destruct Hex as [[_ ->]|[H _]]; [done |]. rewrite H in Ht. by destruct Ht.
Qed.

Section ClientSteps.

Variable URL : string -> option URLRecord.
Variable fetch : string -> N -> FetchSettle.

Lemma spliceImage_exclusive (imageUrls : list ParsedImage) (isThought : bool)
    (signature : option string) (parts parts' : list Part) (index : nat)
    (imageData : option Downloaded) :
  Forall exclusive parts ->
  GeminiService.spliceImage imageUrls isThought signature parts index imageData = Some parts' ->
  Forall exclusive parts'.
Proof.
  intros Hex. unfold GeminiService.spliceImage.
  destruct imageData as [d|].
  { intros [= <-]. apply Forall_app. split; [done |]. constructor; [| done].
    unfold exclusive. right. split; [done | by eexists]. }
  destruct (imageUrls !! index) as [img|]; [| done].
  assert (Forall exclusive
            (parts ++ [textPart (GeminiService.originalMarkdown img) isThought signature]))
    as Hpush.
  { apply Forall_app. split; [done |]. constructor; [| done].
    unfold exclusive. left. split; [by eexists | done]. }
  destruct (last parts) as [lp|] eqn:El; [| by intros [= <-]].
  destruct (Js.truthy_opt (text lp)) eqn:Et; [| by intros [= <-]].
  apply last_snoc_inv in El as [init ->]. rewrite insert_last. intros [= <-].
  apply Forall_app in Hex as [Hinit Hlp]. apply Forall_inv in Hlp.
  apply Forall_app. split; [done |]. constructor; [| done].
  unfold exclusive in *. left. split; [by eexists |]. simpl.
  destruct Hlp as [[_ H]|[H _]]; [done | by rewrite H in Et].
Qed.

Lemma spliceImages_exclusive (imageUrls : list ParsedImage) (isThought : bool)
    (signature : option string) (imageResults : list (option Downloaded)) (index : nat)
    (parts : list Part) :
  Forall exclusive parts ->
  Forall exclusive
    (GeminiService.spliceImages imageUrls isThought signature index imageResults parts).1.
Proof.
  revert index parts. induction imageResults as [|r rs IH]; intros index parts Hex; [done |].
  simpl.
  destruct (GeminiService.spliceImage imageUrls isThought signature parts index r)
    as [parts1|] eqn:E; [| done].
  apply IH. by eapply spliceImage_exclusive.
Qed.

Lemma processTextWithCdnImages_exclusive (t : string) (isThought : bool)
    (signature : option string) (processed : list Part) :
  GeminiService.processTextWithCdnImages URL fetch t isThought signature = Some processed ->
  Forall exclusive processed.
Proof.
  rewrite processTextWithCdnImages_returns. intros [= <-].
  apply spliceImages_exclusive. unfold GeminiService.pushTextParts.
  apply Forall_forall. intros p Hp. apply list_elem_of_In, in_map_iff in Hp as (x & <- & _).
  unfold exclusive. left. split; [by eexists | done].
Qed.

(** One step of the client's assembler keeps the parts exclusive and never
    drops a binary payload. *)
Lemma processPart_binaries (enable : bool) (st st' : GeminiService.StreamState)
    (part : SDKPart) :
  Forall exclusive (GeminiService.currentParts st) ->
  GeminiService.processPart URL fetch enable st part = Some st' ->
  Forall exclusive (GeminiService.currentParts st') /\
  keepsBinaries (GeminiService.currentParts st) (GeminiService.currentParts st').
Proof.
  intros Hex. unfold GeminiService.processPart, keepsBinaries.
  destruct (sdk_text part) as [t|].
  - destruct (enable && containsCdnImages URL _).
    + destruct (GeminiService.processTextWithCdnImages URL fetch _ _ _) as [processed|] eqn:E;
        [| done].
      intros [= <-]. simpl.
      pose proof (processTextWithCdnImages_exclusive _ _ _ _ E) as Hp.
      destruct (spliceProcessed_spec (GeminiService.currentParts st) processed)
        as [(pre & p & post & H1 & H2 & H3 & ->)|[H1 ->]].
      * rewrite H1 in Hex. apply Forall_app in Hex as [Hpre Hpost].
        apply Forall_cons in Hpost as [Hp0 Hpost]. split.
        -- apply Forall_app. split; [done |]. by apply Forall_app.
        -- exists (binaries processed).
           rewrite H1, (noText_binaries_delete pre post p Hp0 H2).
           by rewrite app_assoc, binaries_app.
      * split; [by apply Forall_app |]. exists (binaries processed). apply binaries_app.
    + intros [= <-]. simpl. split; [by apply mergeText_exclusive |].
      exists []. by rewrite mergeText_binaries, app_nil_r.
  - destruct (sdk_inlineData part) as [d|].
    + intros [= <-]. simpl.
      assert (exclusive (binaryPart d (to_boolean (sdk_thought part))
                           (sdk_thoughtSignature part))) as Hb.
      { unfold exclusive. right. split; [done | by eexists]. }
      destruct (Js.truthy _); simpl.
      * split.
        -- rewrite <- app_assoc. apply Forall_app. split; [done |].
           constructor; [| by constructor].
           unfold exclusive. left. split; [by eexists | done].
        -- eexists. rewrite <- app_assoc. apply binaries_app.
      * split; [apply Forall_app; split; [done | by constructor] |].
        eexists. apply binaries_app.
    + intros [= <-]. split; [done |]. exists []. by rewrite app_nil_r.
Qed.

End ClientSteps.

(** The client's generator always reaches its end: no step of it is left
    without a result. *)
Lemma client_streamLoop_returns (URL : string -> option URLRecord)
    (fetch : string -> N -> FetchSettle) (enable : bool) (chunks : list Chunk)
    (st : GeminiService.StreamState) :
  is_Some (GeminiService.streamLoop URL fetch enable chunks st).
Proof.
  assert (forall st part, is_Some (GeminiService.processPart URL fetch enable st part)) as Hpart.
  { intros st0 part. unfold GeminiService.processPart.
    destruct (sdk_text part) as [t|].
    - destruct (enable && containsCdnImages URL _); [| by eexists].
      pose proof (processTextWithCdnImages_returns URL fetch
                    (GeminiService.pendingTextBuffer st0 +:+ t)
                    (to_boolean (sdk_thought part)) (sdk_thoughtSignature part)) as Hr.
      cbv zeta in Hr. rewrite Hr. by eexists.
    - destruct (sdk_inlineData part); by eexists. }
  assert (forall fs st, is_Some (GeminiService.processParts URL fetch enable st fs)) as Hparts.
  { induction fs as [|f fs IH]; intros st0; simpl; [by eexists |].
    destruct (Hpart st0 f) as [st1 ->]. apply IH. }
  revert st. induction chunks as [|c chunks IH]; intros st; simpl; [by eexists |].
  destruct (aborted c); [by eexists |].
  destruct (candidate_parts c) as [fs|]; [| apply IH].
  destruct (Hparts fs st) as [st1 ->]. destruct (IH st1) as [[snaps final] ->]. by eexists.
Qed.

Lemma keepsBinaries_refl (a : list Part) : keepsBinaries a a.
Proof. exists []. by rewrite app_nil_r. Qed.

Lemma keepsBinaries_trans (a b c : list Part) :
  keepsBinaries a b -> keepsBinaries b c -> keepsBinaries a c.
Proof.
  intros [m1 H1] [m2 H2]. exists (m1 ++ m2). by rewrite H2, H1, app_assoc.
Qed.

Lemma flushRemaining_ok (st : GeminiService.StreamState) :
  Forall exclusive (GeminiService.currentParts st) ->
  Forall exclusive (GeminiService.flushRemaining st) /\
  keepsBinaries (GeminiService.currentParts st) (GeminiService.flushRemaining st).
Proof.
  intros Hex. unfold GeminiService.flushRemaining.
  destruct (Js.truthy _); [| split; [done | apply keepsBinaries_refl]].
  split.
  - apply Forall_app. split; [done |]. constructor; [| done].
    unfold exclusive. left. split; [by eexists | done].
  - exists []. rewrite binaries_app. done.
Qed.

(** X7.  A part of either streaming assembler holds a text or a binary
    payload, never both and never neither: this holds of every part of every
    list the server's and the client's assembler yield, and of the list the
    client's generator leaves when it ends. *)
Theorem parts_are_exclusive (URL : string -> option URLRecord)
    (fetch : string -> N -> FetchSettle) (enable : bool) :
  (forall chunks, Forall (Forall exclusive) (GeminiProxy.streamGeminiResponse chunks)) /\
  (forall chunks, exists run,
     GeminiService.streamGeminiResponse URL fetch enable chunks = Some run /\
     Forall (Forall exclusive) (GeminiService.yielded run) /\
     Forall exclusive (GeminiService.finalParts run)).
Proof.
  split.
  - intros chunks.
    apply (proxy_streamLoop_ok (Forall exclusive) (fun _ _ => True)); try done.
    intros parts f H. split; [by apply mergePart_exclusive | done].
  - intros chunks. unfold GeminiService.streamGeminiResponse.
    destruct (client_streamLoop_returns URL fetch enable chunks GeminiService.initialState)
      as [[snaps final] E].
    rewrite E. eexists. split; [done |]. simpl.
    destruct (client_streamLoop_ok URL fetch enable (Forall exclusive) keepsBinaries
                keepsBinaries_refl keepsBinaries_trans
                (fun st part st' => processPart_binaries URL fetch enable st st' part)
                chunks GeminiService.initialState final snaps ltac:(by constructor) E)
      as (H1 & _ & H3).
    split; [done |]. apply flushRemaining_ok.
    destruct snaps as [|s0 snaps]; simpl in H3.
    + injection H3 as <-. by constructor.
    + rewrite Forall_forall in H1. apply H1.
      apply list_elem_of_In. rewrite <- last_cons_nonempty with (x := []) in H3 by done.
      clear -H3. change ([] :: s0 :: snaps) with ([[]] ++ s0 :: snaps) in H3.
      destruct (list_snoc_inv (s0 :: snaps)) as [E|(init & x & E)]; [done |].
      rewrite E in *. rewrite app_assoc, last_snoc in H3. injection H3 as ->.
      apply in_or_app. right. by left.
Qed.

(** X8.  The client's streaming assembler never drops a binary payload:
    along a run, each yielded list holds the binary payloads of the list
    yielded before it, in the same order, possibly followed by new ones, and
    so does the list left when the generator ends.  (Text parts, by
    contrast, can be removed by a resolution pass.) *)
Theorem client_stream_keeps_binaries (URL : string -> option URLRecord)
    (fetch : string -> N -> FetchSettle) (enable : bool)
    (chunks : list Chunk) :
  exists run,
    GeminiService.streamGeminiResponse URL fetch enable chunks = Some run /\
    chained keepsBinaries (GeminiService.yielded run ++ [GeminiService.finalParts run]).
Proof.
  unfold GeminiService.streamGeminiResponse.
  destruct (client_streamLoop_returns URL fetch enable chunks GeminiService.initialState)
    as [[snaps final] E].
  rewrite E. eexists. split; [done |]. simpl.
  destruct (client_streamLoop_ok URL fetch enable (Forall exclusive) keepsBinaries
              keepsBinaries_refl keepsBinaries_trans
              (fun st part st' => processPart_binaries URL fetch enable st st' part)
              chunks GeminiService.initialState final snaps ltac:(by constructor) E)
    as (H1 & H2 & H3).
  assert (Forall exclusive (GeminiService.currentParts final)) as Hfin.
  { destruct (list_snoc_inv snaps) as [->|(init & x & ->)].
    - simpl in H3. injection H3 as <-. by constructor.
    - change (GeminiService.currentParts GeminiService.initialState :: init ++ [x])
        with ([GeminiService.currentParts GeminiService.initialState] ++ init ++ [x]) in H3.
      rewrite app_assoc, last_snoc in H3. injection H3 as <-.
      apply Forall_app in H1 as [_ H1]. by apply Forall_inv in H1. }
  apply chained_snoc; [by apply chained_tail in H2 |].
  intros x Hx.
  assert (x = GeminiService.currentParts final) as ->.
  { destruct snaps as [|s0 snaps]; [done |].
    rewrite last_cons_nonempty in H3 by done. rewrite H3 in Hx. by injection Hx. }
  by apply flushRemaining_ok.
Qed.

(** ** The client's assembler on streams of text, resolution switched off *)

Section ClientPlain.

Variable URL : string -> option URLRecord.
Variable fetch : string -> N -> FetchSettle.

Lemma client_plain_processParts (fs : list SDKPart) (st : GeminiService.StreamState) :
  Forall notBinary fs ->
  exists st',
    GeminiService.processParts URL fetch false st fs = Some st' /\
    GeminiService.currentParts st'
    = foldl GeminiProxy.mergePart (GeminiService.currentParts st) fs /\
    GeminiService.pendingTextBuffer st'
    = GeminiService.pendingTextBuffer st +:+ fragmentText fs.
Proof.
  revert st. induction fs as [|f fs IH]; intros st Hfs.
  - exists st. simpl. by rewrite string_app_nil_r.
  - apply Forall_cons in Hfs as [Hf Hfs]. cbn [GeminiService.processParts foldl fragmentText].
    unfold GeminiService.processPart, GeminiProxy.mergePart.
    destruct (sdk_text f) as [t|] eqn:Et; cbn [andb default].
    + destruct (IH {| GeminiService.currentParts :=
                        mergeText (GeminiService.currentParts st) t
                          (to_boolean (sdk_thought f)) (sdk_thoughtSignature f);
                      GeminiService.pendingTextBuffer :=
                        GeminiService.pendingTextBuffer st +:+ t;
                      GeminiService.lastThoughtState := to_boolean (sdk_thought f);
                      GeminiService.lastSignature := sdk_thoughtSignature f |} Hfs)
        as (st' & H1 & H2 & H3).
      cbn [GeminiService.pendingTextBuffer GeminiService.currentParts] in H2, H3.
      exists st'. split; [done |]. split; [done |].
      rewrite H3. first [by rewrite string_app_assoc | by rewrite <- string_app_assoc].
    + destruct Hf as [[? Hf]|Hf]; [congruence |]. rewrite Hf.
      destruct (IH st Hfs) as (st' & H1 & H2 & H3). by exists st'.
Qed.

Lemma client_plain_streamLoop (chunks : list (option (list SDKPart)))
    (st : GeminiService.StreamState) :
  Forall notBinary (fragmentsOf chunks) ->
  exists final,
    GeminiService.streamLoop URL fetch false (map liveChunk chunks) st
    = Some (GeminiProxy.streamLoop chunks (GeminiService.currentParts st), final) /\
    GeminiService.currentParts final
    = foldl GeminiProxy.mergePart (GeminiService.currentParts st) (fragmentsOf chunks) /\
    GeminiService.pendingTextBuffer final
    = GeminiService.pendingTextBuffer st +:+ fragmentText (fragmentsOf chunks).
Proof.
  revert st. induction chunks as [|[fs|] chunks IH]; intros st Hfs.
  - exists st. simpl. by rewrite string_app_nil_r.
  - unfold fragmentsOf in Hfs. cbn [omap list_omap id concat] in Hfs.
    fold (fragmentsOf chunks) in Hfs. apply Forall_app in Hfs as [Hfs Hrest].
    destruct (client_plain_processParts fs st Hfs) as (st1 & H1 & H2 & H3).
    destruct (IH st1 Hrest) as (final & H4 & H5 & H6).
    exists final. cbn [map GeminiService.streamLoop liveChunk aborted candidate_parts
                       GeminiProxy.streamLoop].
    rewrite H1, H4, H2. split; [done |].
    unfold fragmentsOf. cbn [omap list_omap id concat]. fold (fragmentsOf chunks).
    rewrite foldl_app, fragmentText_app, H5, H6, H2, H3. by rewrite string_app_assoc.
  - unfold fragmentsOf in *. cbn [omap list_omap id concat] in *.
    destruct (IH st Hfs) as (final & H4 & H5 & H6). by exists final.
Qed.

End ClientPlain.

(** X9.  With image resolution switched off, on a stream that carries no
    binary fragment, the client's assembler returns and yields exactly the
    part lists the server's assembler yields for the same chunks. *)
Theorem client_plain_stream_yields_as_server (URL : string -> option URLRecord)
    (fetch : string -> N -> FetchSettle) (chunks : list (option (list SDKPart))) :
  Forall notBinary (fragmentsOf chunks) ->
  exists run,
    GeminiService.streamGeminiResponse URL fetch false (map liveChunk chunks) = Some run /\
    GeminiService.yielded run = GeminiProxy.streamGeminiResponse chunks.
Proof.
  intros Hfs.
  destruct (client_plain_streamLoop URL fetch chunks GeminiService.initialState Hfs)
    as (final & H & _).
  unfold GeminiService.streamGeminiResponse. rewrite H. by eexists.
Qed.

Lemma client_plain_stream_yields_as_server_witness :
  exists run,
    GeminiService.streamGeminiResponse sample_URL fetch_ok false
      (map liveChunk [Some [textFragment "Hel"]; None; Some [textFragment "lo"]]) = Some run /\
    GeminiService.yielded run
    = GeminiProxy.streamGeminiResponse [Some [textFragment "Hel"]; None; Some [textFragment "lo"]].
Proof.
  apply (client_plain_stream_yields_as_server sample_URL fetch_ok
           [Some [textFragment "Hel"]; None; Some [textFragment "lo"]]).
  repeat constructor; left; by eexists.
Defined.

(** X10.  With image resolution switched off, on a stream that carries no
    binary fragment and whose text [T] is not blank, the list the client's
    generator leaves when it ends renders [T] twice: the merged parts hold
    [T], and the pending buffer, which the merge never empties, is pushed
    once more as a part of its own.  When [T] is blank nothing is added. *)
Theorem client_plain_stream_final_text (URL : string -> option URLRecord)
    (fetch : string -> N -> FetchSettle) (chunks : list (option (list SDKPart))) :
  Forall notBinary (fragmentsOf chunks) ->
  exists run,
    GeminiService.streamGeminiResponse URL fetch false (map liveChunk chunks) = Some run /\
    renderedText (GeminiService.finalParts run)
    = fragmentText (fragmentsOf chunks) +:+
      (if Js.truthy (Js.trim (fragmentText (fragmentsOf chunks)))
       then fragmentText (fragmentsOf chunks) else "").
Proof.
  intros Hfs.
  destruct (client_plain_streamLoop URL fetch chunks GeminiService.initialState Hfs)
    as (final & H & Hparts & Hbuf).
  unfold GeminiService.streamGeminiResponse. rewrite H. eexists. split; [done |].
  cbn [GeminiService.finalParts]. unfold GeminiService.flushRemaining.
  change (GeminiService.pendingTextBuffer GeminiService.initialState +:+
          fragmentText (fragmentsOf chunks))
    with (fragmentText (fragmentsOf chunks)) in Hbuf.
  rewrite Hbuf, Hparts.
  destruct (foldl_mergePart_payloads (fragmentsOf chunks)
              (GeminiService.currentParts GeminiService.initialState)) as [Hr _].
  change (renderedText (GeminiService.currentParts GeminiService.initialState) +:+
          fragmentText (fragmentsOf chunks))
    with (fragmentText (fragmentsOf chunks)) in Hr.
  destruct (Js.truthy _).
  - rewrite renderedText_app, Hr. simpl. by rewrite string_app_nil_r.
  - by rewrite Hr, string_app_nil_r.
Qed.

Lemma client_plain_stream_final_text_witness :
  exists run,
    GeminiService.streamGeminiResponse sample_URL fetch_ok false
      (map liveChunk [Some [textFragment "Hel"]; Some [textFragment "lo"]]) = Some run /\
    renderedText (GeminiService.finalParts run) = "HelloHello".
Proof.
  apply (client_plain_stream_final_text sample_URL fetch_ok
           [Some [textFragment "Hel"]; Some [textFragment "lo"]]).
  repeat constructor; left; by eexists.
Defined.

(** X11.  Once the abort signal is seen at the head of an iteration, the
    client's generator handles no further chunk: the chunk that arrives with
    the signal set and all chunks after it leave no trace in what is yielded,
    and the pending text is flushed as if the stream had ended there. *)
Theorem client_stream_stops_at_abort (URL : string -> option URLRecord)
    (fetch : string -> N -> FetchSettle) (enable : bool)
    (pre rest : list Chunk) (c : Chunk) :
  aborted c = true ->
  GeminiService.streamGeminiResponse URL fetch enable (pre ++ c :: rest)
  = GeminiService.streamGeminiResponse URL fetch enable pre.
Proof.
  intros Hc. unfold GeminiService.streamGeminiResponse.
  enough (forall st, GeminiService.streamLoop URL fetch enable (pre ++ c :: rest) st
                     = GeminiService.streamLoop URL fetch enable pre st) as -> by done.
  induction pre as [|p pre IH]; intros st; simpl; [by rewrite Hc |].
  destruct (aborted p); [done |].
  destruct (candidate_parts p) as [fs|]; [| apply IH].
  destruct (GeminiService.processParts URL fetch enable st fs) as [st1|]; [| done].
  by rewrite IH.
Qed.

Lemma client_stream_stops_at_abort_witness :
  GeminiService.streamGeminiResponse sample_URL fetch_ok true
    ([chunk [textFragment "Hello"]]
       ++ {| aborted := true; candidate_parts := Some [textFragment " world"] |}
       :: [chunk [textFragment "!"]])
  = GeminiService.streamGeminiResponse sample_URL fetch_ok true [chunk [textFragment "Hello"]].
Proof.
  by apply (client_stream_stops_at_abort sample_URL fetch_ok true
              [chunk [textFragment "Hello"]] [chunk [textFragment "!"]]
              {| aborted := true; candidate_parts := Some [textFragment " world"] |}).
Defined.

(** ** The client's one-shot conversion *)

Section OneShotRuns.

Variable URL : string -> option URLRecord.
Variable fetch : string -> N -> FetchSettle.
Variable enable : bool.

Lemma foldl_sdkStep (fs : list SDKPart) (st : list Part * list GeminiServiceContent.QueuedText) :
  foldl (GeminiServiceContent.sdkStep URL enable) st fs
  = (foldl GeminiProxy.mergePart st.1 (filter (fun f => deferred URL enable f = false) fs),
     st.2 ++ map (fun f => {| GeminiServiceContent.q_text := default "" (sdk_text f);
                              GeminiServiceContent.q_isThought := to_boolean (sdk_thought f);
                              GeminiServiceContent.q_signature := sdk_thoughtSignature f |})
                 (filter (fun f => deferred URL enable f = true) fs)).
Proof.
  revert st. induction fs as [|f fs IH]; intros [parts queue].
  - simpl. by rewrite app_nil_r.
  - cbn [foldl]. rewrite IH. rewrite !filter_cons.
    destruct (deferred URL enable f) eqn:D.
    + rewrite decide_False, decide_True by done.
      assert (GeminiServiceContent.sdkStep URL enable (parts, queue) f
              = (parts, queue ++ [ {| GeminiServiceContent.q_text := default "" (sdk_text f);
                                      GeminiServiceContent.q_isThought :=
                                        to_boolean (sdk_thought f);
                                      GeminiServiceContent.q_signature :=
                                        sdk_thoughtSignature f |} ])) as ->.
      { unfold GeminiServiceContent.sdkStep, deferred in *.
        destruct (sdk_text f); [by rewrite D | done]. }
      cbn [fst snd map]. by rewrite <- app_assoc.
    + rewrite decide_True, decide_False by done.
      assert (GeminiServiceContent.sdkStep URL enable (parts, queue) f
              = (GeminiProxy.mergePart parts f, queue)) as ->; [| done].
      unfold GeminiServiceContent.sdkStep, deferred, GeminiProxy.mergePart in *.
      destruct (sdk_text f); [by rewrite D |]. by destruct (sdk_inlineData f).
Qed.

Lemma processQueue_returns (fs : list SDKPart) :
  exists processed,
    GeminiServiceContent.processQueue URL fetch
      (map (fun f => {| GeminiServiceContent.q_text := default "" (sdk_text f);
                        GeminiServiceContent.q_isThought := to_boolean (sdk_thought f);
                        GeminiServiceContent.q_signature := sdk_thoughtSignature f |}) fs)
    = Some processed /\
    Forall2 (fun f parts =>
               GeminiService.processTextWithCdnImages URL fetch (default "" (sdk_text f))
                 (to_boolean (sdk_thought f)) (sdk_thoughtSignature f) = Some parts)
            fs processed.
Proof.
  induction fs as [|f fs (processed & H1 & H2)]; [by exists [] |].
  cbn [map GeminiServiceContent.processQueue GeminiServiceContent.q_text
       GeminiServiceContent.q_isThought GeminiServiceContent.q_signature].
  rewrite H1.
  pose proof (processTextWithCdnImages_returns URL fetch (default "" (sdk_text f))
                (to_boolean (sdk_thought f)) (sdk_thoughtSignature f)) as Hr.
  cbv zeta in Hr. rewrite Hr. eexists. split; [done |]. by constructor.
Qed.

End OneShotRuns.

(** X12.  The client's one-shot conversion always returns, and it moves the
    texts it resolves to the end: the result is the server's merge of the
    fragments that are not deferred, in arrival order, followed by the parts
    of the resolution passes of the deferred text fragments (those with a
    fetchable reference, when resolution is switched on), in arrival
    order, wherever these fragments stood in the response. *)
Theorem processSdkParts_defers_resolved_texts (URL : string -> option URLRecord)
    (fetch : string -> N -> FetchSettle) (enable : bool) (fs : list SDKPart) :
  exists processed,
    GeminiServiceContent.processSdkParts URL fetch fs enable
    = Some (foldl GeminiProxy.mergePart []
              (filter (fun f => deferred URL enable f = false) fs) ++ concat processed) /\
    Forall2 (fun f parts =>
               GeminiService.processTextWithCdnImages URL fetch (default "" (sdk_text f))
                 (to_boolean (sdk_thought f)) (sdk_thoughtSignature f) = Some parts)
            (filter (fun f => deferred URL enable f = true) fs) processed.
Proof.
  destruct (processQueue_returns URL fetch
              (filter (fun f => deferred URL enable f = true) fs)) as (processed & H1 & H2).
  exists processed. split; [| done].
  unfold GeminiServiceContent.processSdkParts. rewrite foldl_sdkStep. cbn [fst snd app].
  rewrite H1.
  destruct (0 <? length _) eqn:E; [done |].
  apply Nat.ltb_ge in E. rewrite length_map in E.
  destruct (filter _ fs); [| simpl in E; lia].
  apply Forall2_nil_inv_l in H2 as ->. simpl. by rewrite app_nil_r.
Qed.

(** X13.  When no fragment is deferred (resolution is switched off, or no
    text fragment holds a fetchable reference), the client's one-shot
    conversion returns exactly what the server's streaming merge makes of
    the same fragments. *)
Theorem processSdkParts_plain_is_merge (URL : string -> option URLRecord)
    (fetch : string -> N -> FetchSettle) (enable : bool) (fs : list SDKPart) :
  Forall (fun f => deferred URL enable f = false) fs ->
  GeminiServiceContent.processSdkParts URL fetch fs enable
  = Some (foldl GeminiProxy.mergePart [] fs).
Proof.
  intros Hfs. unfold GeminiServiceContent.processSdkParts. rewrite foldl_sdkStep.
  cbn [fst snd app].
  assert (filter (fun f => deferred URL enable f = true) fs = []) as ->.
  { induction Hfs as [|f fs Hf _ IH]; [done |].
    rewrite filter_cons, decide_False; [done | by rewrite Hf]. }
  assert (filter (fun f => deferred URL enable f = false) fs = fs) as ->; [| done].
  induction Hfs as [|f fs Hf _ IH]; [done |].
  by rewrite filter_cons, decide_True, IH.
Qed.

Lemma processSdkParts_plain_is_merge_witness :
  GeminiServiceContent.processSdkParts sample_URL fetch_ok
    [textFragment "Hel"; textFragment "lo"; imageFragment "image/png" "AAAA"] true
  = Some (foldl GeminiProxy.mergePart []
            [textFragment "Hel"; textFragment "lo"; imageFragment "image/png" "AAAA"]).
Proof.
  apply (processSdkParts_plain_is_merge sample_URL fetch_ok true
           [textFragment "Hel"; textFragment "lo"; imageFragment "image/png" "AAAA"]).
  repeat constructor.
Defined.

(** ** Thought text and answer text stay apart *)

Lemma proxy_streamLoop_last_foldl (chunks : list (option (list SDKPart))) (parts l : list Part) :
  last (GeminiProxy.streamLoop chunks parts) = Some l ->
  l = foldl GeminiProxy.mergePart parts (fragmentsOf chunks).
Proof.
  revert parts. induction chunks as [|[fs|] chunks IH]; intros parts; [done | |].
  - cbn [GeminiProxy.streamLoop]. unfold fragmentsOf. cbn [omap list_omap id concat].
    fold (fragmentsOf chunks). rewrite foldl_app.
    destruct (GeminiProxy.streamLoop chunks (foldl GeminiProxy.mergePart parts fs))
      as [|s0 snaps] eqn:E.
    + intros [= <-]. destruct chunks as [|c chunks]; [done |].
      assert (fragmentsOf (c :: chunks) = []) as ->; [| done].
      clear IH. revert E. generalize (foldl GeminiProxy.mergePart parts fs).
      induction (c :: chunks) as [|[gs|] cs IHc]; intros ps; [done | done |].
      cbn [GeminiProxy.streamLoop]. apply IHc.
    + rewrite last_cons_nonempty by done. rewrite <- E. apply IH.
  - apply IH.
Qed.

Lemma mergeText_thoughts (b : bool) (parts : list Part) (t : string) (isThought : bool)
    (signature : option string) :
  renderedText (filter (fun p => to_boolean (thought p) = b)
                  (mergeText parts t isThought signature))
  = renderedText (filter (fun p => to_boolean (thought p) = b) parts) +:+
    (if Bool.eqb isThought b then t else "").
Proof.
  assert (renderedText (filter (fun p => to_boolean (thought p) = b)
                          (parts ++ [textPart t isThought signature]))
          = renderedText (filter (fun p => to_boolean (thought p) = b) parts) +:+
            (if Bool.eqb isThought b then t else "")) as Hpush.
  { rewrite filter_app, renderedText_app. f_equal. rewrite filter_cons, filter_nil.
    cbn [thought textPart to_boolean default].
    destruct isThought, b; simpl; by rewrite ?string_app_nil_r. }
  unfold mergeText.
  destruct (list_snoc_inv parts) as [->|(init & lp & ->)]; [done |].
  rewrite last_snoc.
  destruct (text lp) as [lt|] eqn:Et; [| done].
  destruct (Bool.eqb (to_boolean (thought lp)) isThought) eqn:Eb; [| done].
  apply Bool.eqb_prop in Eb.
  rewrite insert_last, !filter_app, !renderedText_app, !filter_cons, !filter_nil.
  cbn [thought extendPart]. rewrite Eb.
  destruct isThought, b; simpl; rewrite ?Et; simpl;
    by rewrite ?string_app_nil_r, ?string_app_assoc.
Qed.

Lemma foldl_mergePart_thoughts (b : bool) (fs : list SDKPart) (parts : list Part) :
  renderedText (filter (fun p => to_boolean (thought p) = b)
                  (foldl GeminiProxy.mergePart parts fs))
  = renderedText (filter (fun p => to_boolean (thought p) = b) parts) +:+
    fragmentText (filter (fun f => to_boolean (sdk_thought f) = b) fs).
Proof.
  revert parts. induction fs as [|f fs IH]; intros parts.
  - simpl. by rewrite string_app_nil_r.
  - cbn [foldl]. rewrite IH, filter_cons. unfold GeminiProxy.mergePart.
    destruct (sdk_text f) as [t|] eqn:Et.
    + rewrite mergeText_thoughts.
      destruct (to_boolean (sdk_thought f)), b; simpl; rewrite ?Et; simpl;
        by rewrite ?string_app_nil_r, ?string_app_assoc.
    + assert (renderedText (filter (fun p => to_boolean (thought p) = b)
                              match sdk_inlineData f with
                              | Some d => parts ++ [binaryPart d (to_boolean (sdk_thought f))
                                                      (sdk_thoughtSignature f)]
                              | None => parts
                              end)
              = renderedText (filter (fun p => to_boolean (thought p) = b) parts)) as ->.
      { destruct (sdk_inlineData f) as [d|]; [| done].
        rewrite filter_app, renderedText_app, filter_cons, filter_nil.
        case_decide; simpl; by rewrite string_app_nil_r. }
      case_decide; [| done]. cbn [fragmentText]. rewrite Et. done.
Qed.

(** X14.  The server's streaming assembler keeps thought text and answer
    text apart: in the list it yields last, the parts flagged as thought
    render exactly the texts of the fragments flagged as thought, in arrival
    order, and the parts not flagged render exactly the texts of the other
    fragments. *)
Theorem proxy_stream_separates_thoughts (chunks : list (option (list SDKPart)))
    (l : list Part) (b : bool) :
  last (GeminiProxy.streamGeminiResponse chunks) = Some l ->
  renderedText (filter (fun p => to_boolean (thought p) = b) l)
  = fragmentText (filter (fun f => to_boolean (sdk_thought f) = b) (fragmentsOf chunks)).
Proof.
  intros H. apply proxy_streamLoop_last_foldl in H as ->.
  by rewrite foldl_mergePart_thoughts.
Qed.

Lemma proxy_stream_separates_thoughts_witness :
  renderedText
    (filter (fun p => to_boolean (thought p) = true)
       [ textPart "hm" true None; plainText "Hi"; textPart "ok" true None ])
  = "hmok".
Proof.
  apply (proxy_stream_separates_thoughts
           [ Some [ {| sdk_text := Some "hm"; sdk_inlineData := None;
                       sdk_thought := Some true; sdk_thoughtSignature := None |};
                    textFragment "Hi" ];
             Some [ {| sdk_text := Some "ok"; sdk_inlineData := None;
                       sdk_thought := Some true; sdk_thoughtSignature := None |} ] ]
           [ textPart "hm" true None; plainText "Hi"; textPart "ok" true None ] true).
  reflexivity.
Defined.
